(** * The task scheduling core of the mail engine

    A shallow embedding of [TaskPriorities] (the second module of
    js/ext/axeshim-browserbox.js), of the [append_message] simple task
    (js/imap/vanilla_tasks/append_message.js) and of the [store_flags] complex
    task, with the properties the specification states about them. *)

From stdpp Require Import gmap strings list fin_maps sorting.
From Stdlib Require Import ZArith Lia.

Local Open Scope Z_scope.

(** ** Data model *)

Abbreviation TaskId := string (only parsing).
Abbreviation PriorityTag := string (only parsing).
Abbreviation PriorityOwner := string (only parsing).

(** The exceptions the embedded code can raise. *)
Inductive JSError :=
| TypeError (msg : string)
| ReferenceError (name : string)
| Rejected (reason : string).

(** The completion of a call that mutates an object of state [S]: it returns
    or it throws, and in both cases the mutations made so far stay. *)
Inductive Completion (A S : Type) :=
| Normal (result : A) (state : S)
| Throw (error : JSError) (state : S).
Arguments Normal {A S} result state.
Arguments Throw {A S} error state.

Definition final_state {A S} (c : Completion A S) : S :=
  match c with Normal _ s | Throw _ s => s end.

Definition returned {A S} (c : Completion A S) : option A :=
  match c with Normal a _ => Some a | Throw _ _ => None end.

(** What [plannedTask] carries for the priority index. *)
Record PlannedTask := {
  pt_type : string;
  pt_priorityTags : list PriorityTag;
  pt_relPriority : option Z
}.

(** A [WrappedTask] keeps its type on [plannedTask]; a [TaskMarker] is flat and
    has a (truthy) [type] at its root, which is how the code tells them apart.
    [relPriority] may be absent; [priorityTags] is the array every planned task
    and marker carries. *)
Inductive TaskThing :=
| WrappedTask (id : TaskId) (plannedTask : PlannedTask)
| TaskMarker (id : TaskId) (type : string)
             (priorityTags : list PriorityTag) (relPriority : option Z).

Definition thing_id (t : TaskThing) : TaskId :=
  match t with WrappedTask i _ | TaskMarker i _ _ _ => i end.

(** [let isTask = !taskThing.type] *)
Definition isTask (t : TaskThing) : bool :=
  match t with WrappedTask _ _ => true | TaskMarker _ _ _ _ => false end.

(** [isTask ? taskThing.plannedTask.priorityTags : taskThing.priorityTags] *)
Definition thing_priorityTags (t : TaskThing) : list PriorityTag :=
  match t with
  | WrappedTask _ p => pt_priorityTags p
  | TaskMarker _ _ tags _ => tags
  end.

(** [isTask ? taskThing.plannedTask.relPriority : taskThing.relPriority] *)
Definition thing_relPriority (t : TaskThing) : option Z :=
  match t with
  | WrappedTask _ p => pt_relPriority p
  | TaskMarker _ _ _ r => r
  end.

(** A heap node is a mutable object [{key, value}]; the index refers to nodes
    by reference, here by their position in the store of allocated nodes. *)
Record HeapNode := { key : Z; value : TaskThing }.

Abbreviation NodeRef := nat (only parsing).

(** ** The priority heap *)

Module FibonacciHeap.

(** Modelled from the spec: the heap class of ext/fibonacci-heap is not part
    of the sources at hand.  Section 4.1 describes it as a min-structure
    (lower key first) whose extraction breaks ties by insertion order,
    yields nothing when empty, and which offers decrease-key and deletion by
    node handle.  [nodes] is the store of every node object ever created,
    [live] the references of the nodes currently in the heap, oldest first. *)
Record t := { nodes : list HeapNode; live : list NodeRef }.

Definition empty : t := {| nodes := []; live := [] |}.

Definition node_key (ns : list HeapNode) (n : NodeRef) : Z :=
  from_option key 0 (ns !! n).

(** Modelled from the spec: [isEmpty()]. *)
Definition isEmpty (h : t) : bool :=
  match live h with [] => true | _ :: _ => false end.

(** Modelled from the spec: [insert(key, value)] creates a node, adds it
    behind the nodes already present and returns it. *)
Definition insert (k : Z) (v : TaskThing) (h : t) : NodeRef * t :=
  (length (nodes h),
   {| nodes := nodes h ++ [{| key := k; value := v |}];
      live := live h ++ [length (nodes h)] |}).

(** The first node of [l] whose key is the least one, [best] being the
    candidate so far: a later node replaces it only with a strictly smaller
    key, so that among equal keys the oldest wins. *)
Fixpoint least (ns : list HeapNode) (best : NodeRef) (l : list NodeRef) : NodeRef :=
  match l with
  | [] => best
  | n :: l' =>
      if node_key ns n <? node_key ns best then least ns n l' else least ns best l'
  end.

Definition findMinimum (h : t) : option NodeRef :=
  match live h with
  | [] => None
  | n :: l => Some (least (nodes h) n l)
  end.

Definition remove_ref (n : NodeRef) (l : list NodeRef) : list NodeRef :=
  filter (λ m, m ≠ n) l.

(** Modelled from the spec: [extractMinimum()] removes and returns the node
    of least key, the oldest one among equals; on an empty heap it returns
    nothing ([undefined]). *)
Definition extractMinimum (h : t) : option NodeRef * t :=
  match findMinimum h with
  | None => (None, h)
  | Some n => (Some n, {| nodes := nodes h; live := remove_ref n (live h) |})
  end.

(** Modelled from the spec: [decreaseKey(node, newKey)] lowers the key of the
    node where it is. *)
Definition decreaseKey (n : NodeRef) (newKey : Z) (h : t) : t :=
  {| nodes := alter (λ nd, {| key := newKey; value := value nd |}) n (nodes h);
     live := live h |}.

(** Modelled from the spec: [delete(node)] takes the node out of the heap. *)
Definition delete (n : NodeRef) (h : t) : t :=
  {| nodes := nodes h; live := remove_ref n (live h) |}.

(** [node.value = v], an assignment to the node object itself. *)
Definition set_value (n : NodeRef) (v : TaskThing) (h : t) : t :=
  {| nodes := alter (λ nd, {| key := key nd; value := v |}) n (nodes h);
     live := live h |}.

End FibonacciHeap.

(** ** TaskPriorities *)

Record TaskPriorities := {
  _prioritizedTasks : FibonacciHeap.t;
  _taskIdToHeapNode : gmap TaskId NodeRef;
  _priorityTagToHeapNodes : gmap PriorityTag (list NodeRef);
  _priorityTagsByOwner : gmap PriorityOwner (gmap PriorityTag Z);
  _summedPriorityTags : gmap PriorityTag Z
}.

(** [new TaskPriorities()] *)
Definition new_TaskPriorities : TaskPriorities :=
  {| _prioritizedTasks := FibonacciHeap.empty;
     _taskIdToHeapNode := ∅;
     _priorityTagToHeapNodes := ∅;
     _priorityTagsByOwner := ∅;
     _summedPriorityTags := ∅ |}.

Definition with_heap (f : FibonacciHeap.t → FibonacciHeap.t) (s : TaskPriorities)
  : TaskPriorities :=
  {| _prioritizedTasks := f (_prioritizedTasks s);
     _taskIdToHeapNode := _taskIdToHeapNode s;
     _priorityTagToHeapNodes := _priorityTagToHeapNodes s;
     _priorityTagsByOwner := _priorityTagsByOwner s;
     _summedPriorityTags := _summedPriorityTags s |}.

Definition with_taskIdToHeapNode (f : gmap TaskId NodeRef → gmap TaskId NodeRef)
  (s : TaskPriorities) : TaskPriorities :=
  {| _prioritizedTasks := _prioritizedTasks s;
     _taskIdToHeapNode := f (_taskIdToHeapNode s);
     _priorityTagToHeapNodes := _priorityTagToHeapNodes s;
     _priorityTagsByOwner := _priorityTagsByOwner s;
     _summedPriorityTags := _summedPriorityTags s |}.

Definition with_priorityTagToHeapNodes
  (f : gmap PriorityTag (list NodeRef) → gmap PriorityTag (list NodeRef))
  (s : TaskPriorities) : TaskPriorities :=
  {| _prioritizedTasks := _prioritizedTasks s;
     _taskIdToHeapNode := _taskIdToHeapNode s;
     _priorityTagToHeapNodes := f (_priorityTagToHeapNodes s);
     _priorityTagsByOwner := _priorityTagsByOwner s;
     _summedPriorityTags := _summedPriorityTags s |}.

Definition with_priorityTagsByOwner
  (f : gmap PriorityOwner (gmap PriorityTag Z) → gmap PriorityOwner (gmap PriorityTag Z))
  (s : TaskPriorities) : TaskPriorities :=
  {| _prioritizedTasks := _prioritizedTasks s;
     _taskIdToHeapNode := _taskIdToHeapNode s;
     _priorityTagToHeapNodes := _priorityTagToHeapNodes s;
     _priorityTagsByOwner := f (_priorityTagsByOwner s);
     _summedPriorityTags := _summedPriorityTags s |}.

Definition with_summedPriorityTags (f : gmap PriorityTag Z → gmap PriorityTag Z)
  (s : TaskPriorities) : TaskPriorities :=
  {| _prioritizedTasks := _prioritizedTasks s;
     _taskIdToHeapNode := _taskIdToHeapNode s;
     _priorityTagToHeapNodes := _priorityTagToHeapNodes s;
     _priorityTagsByOwner := _priorityTagsByOwner s;
     _summedPriorityTags := f (_summedPriorityTags s) |}.

(** The node object behind a reference held by the index. *)
Definition node_at (s : TaskPriorities) (n : NodeRef) : option HeapNode :=
  FibonacciHeap.nodes (_prioritizedTasks s) !! n.

(** [hasTasksToExecute]: [return this._prioritizedTasks.isEmpty();] *)
Definition hasTasksToExecute (s : TaskPriorities) : bool :=
  FibonacciHeap.isEmpty (_prioritizedTasks s).

(** [_computePriorityForTags]: the loop adds
    [summedPriorityTags.get(priorityTag) || 0] to [priority], from 0. *)
Definition _computePriorityForTags (s : TaskPriorities)
  (priorityTags : list PriorityTag) : Z :=
  foldl (λ priority priorityTag,
           priority + default 0 (_summedPriorityTags s !! priorityTag))
        0 priorityTags.

(** [nodes.indexOf(priorityNode)] followed by [nodes.splice(idx, 1)] when the
    index is not -1: the first occurrence goes. *)
Fixpoint remove_first (n : NodeRef) (l : list NodeRef) : list NodeRef :=
  match l with
  | [] => []
  | m :: l' => if decide (m = n) then l' else m :: remove_first n l'
  end.

(** The second argument of [_cleanupTaskPriorityTracking] is [undefined] when
    the caller leaves it out, and no array of nodes holds [undefined]. *)
Definition splice_node (priorityNode : option NodeRef) (l : list NodeRef)
  : list NodeRef :=
  match priorityNode with
  | None => l
  | Some n => remove_first n l
  end.

Definition cleanup_tag (priorityNode : option NodeRef)
  (m : gmap PriorityTag (list NodeRef)) (priorityTag : PriorityTag)
  : gmap PriorityTag (list NodeRef) :=
  match m !! priorityTag with
  | None => m
  | Some nodes =>
      match splice_node priorityNode nodes with
      | [] => delete priorityTag m
      | nodes' => <[priorityTag := nodes']> m
      end
  end.

(** [_cleanupTaskPriorityTracking(taskThing, priorityNode)] *)
Definition _cleanupTaskPriorityTracking (taskThing : TaskThing)
  (priorityNode : option NodeRef) (s : TaskPriorities) : TaskPriorities :=
  with_priorityTagToHeapNodes
    (λ m, foldl (cleanup_tag priorityNode) m (thing_priorityTags taskThing)) s.

Definition setup_tag (priorityNode : NodeRef)
  (m : gmap PriorityTag (list NodeRef)) (priorityTag : PriorityTag)
  : gmap PriorityTag (list NodeRef) :=
  match m !! priorityTag with
  | Some nodes => <[priorityTag := nodes ++ [priorityNode]]> m
  | None => <[priorityTag := [priorityNode]]> m
  end.

(** [_setupTaskPriorityTracking(taskThing, priorityNode)] *)
Definition _setupTaskPriorityTracking (taskThing : TaskThing)
  (priorityNode : NodeRef) (s : TaskPriorities) : TaskPriorities :=
  with_priorityTagToHeapNodes
    (λ m, foldl (setup_tag priorityNode) m (thing_priorityTags taskThing)) s.

(** [_reprioritizeHeapNode(node, newKey)].  The node returned by the
    re-insertion is dropped, as in the source. *)
Definition _reprioritizeHeapNode (node : NodeRef) (newKey : Z)
  (s : TaskPriorities) : TaskPriorities :=
  match node_at s node with
  | None => s
  | Some nd =>
      if newKey <? key nd then
        with_heap (FibonacciHeap.decreaseKey node newKey) s
      else if newKey >? key nd then
        let taskThing := value nd in
        with_heap (λ h, (FibonacciHeap.insert newKey taskThing
                           (FibonacciHeap.delete node h)).2) s
      else s
  end.

(** The key [prioritizeTaskThing] computes: [relPriority] (or 0) plus the
    weight of the tags, negated because the heap is a min-heap. *)
Definition nodeKey (s : TaskPriorities) (taskThing : TaskThing) : Z :=
  let relPriority := default 0 (thing_relPriority taskThing) in
  let priority :=
    relPriority + _computePriorityForTags s (thing_priorityTags taskThing) in
  - priority.

(** [prioritizeTaskThing(taskThing)] *)
Definition prioritizeTaskThing (taskThing : TaskThing) (s : TaskPriorities)
  : TaskPriorities :=
  let nodeKey := nodeKey s taskThing in
  match _taskIdToHeapNode s !! thing_id taskThing with
  | Some priorityNode =>
      let s1 := _reprioritizeHeapNode priorityNode nodeKey s in
      let s2 :=
        match node_at s1 priorityNode with
        | Some nd => _cleanupTaskPriorityTracking (value nd) None s1
        | None => s1
        end in
      let s3 := with_heap (FibonacciHeap.set_value priorityNode taskThing) s2 in
      _setupTaskPriorityTracking taskThing priorityNode s3
  | None =>
      let '(priorityNode, h) :=
        FibonacciHeap.insert nodeKey taskThing (_prioritizedTasks s) in
      let s1 := with_heap (λ _, h) s in
      let s2 := with_taskIdToHeapNode <[thing_id taskThing := priorityNode]> s1 in
      _setupTaskPriorityTracking taskThing priorityNode s2
  end.

(** [popNextAvailableTask()]: reading [priorityNode.value] throws when
    [extractMinimum] returned no node. *)
Definition popNextAvailableTask (s : TaskPriorities)
  : Completion TaskThing TaskPriorities :=
  let '(priorityNode, h) := FibonacciHeap.extractMinimum (_prioritizedTasks s) in
  let s1 := with_heap (λ _, h) s in
  match priorityNode ≫= λ n, pair n <$> node_at s1 n with
  | None => Throw (TypeError "priorityNode is undefined") s1
  | Some (n, nd) =>
      let taskThing := value nd in
      let s2 := with_taskIdToHeapNode (delete (thing_id taskThing)) s1 in
      Normal taskThing (_cleanupTaskPriorityTracking taskThing (Some n) s2)
  end.

(** [removeTaskThing(taskId)] *)
Definition removeTaskThing (taskId : TaskId) (s : TaskPriorities)
  : TaskPriorities :=
  match _taskIdToHeapNode s !! taskId ≫= λ n, pair n <$> node_at s n with
  | Some (priorityNode, nd) =>
      let taskThing := value nd in
      let s1 := with_heap (FibonacciHeap.delete priorityNode) s in
      let s2 := with_taskIdToHeapNode (delete taskId) s1 in
      _cleanupTaskPriorityTracking taskThing (Some priorityNode) s2
  | None => s
  end.

(** The function-valued properties of [Map.prototype].  The iterator over the
    entries of a [Map] is [entries]; the prototype has no [items]. *)
Definition Map_prototype : list string :=
  ["clear"; "delete"; "entries"; "forEach"; "get"; "has"; "keys"; "set";
   "values"].

(** [m.items()] on a [Map] bound to the variable [name]: calling a property
    that is not there throws.  (The entries are listed in key order; no sum
    below depends on the order.) *)
Definition Map_items {V} (name : string) (m : gmap PriorityTag V)
  : JSError + list (PriorityTag * V) :=
  if decide ("items" ∈ Map_prototype) then inr (map_to_list m)
  else inl (TypeError (name +:+ ".items is not a function")).

(** The array pattern [[node, aggregateDelta]] applied to an element of
    [perThingDeltas.values()]: the element is a number, which is not iterable,
    so there is nothing the pattern can bind. *)
Definition array_pattern_of_number (v : Z) : option (NodeRef * Z) := None.

(** The closure [applyDelta(priorityTag, delta)] of [setPriorityBoostTags],
    acting on [summedPriorityTags] and [perThingDeltas]. *)
Definition applyDelta (priorityTagToHeapNodes : gmap PriorityTag (list NodeRef))
  (priorityTag : PriorityTag) (delta : Z)
  (acc : gmap PriorityTag Z * gmap NodeRef Z) : gmap PriorityTag Z * gmap NodeRef Z :=
  let '(summedPriorityTags, perThingDeltas) := acc in
  let newSum := default 0 (summedPriorityTags !! priorityTag) + delta in
  let summedPriorityTags' :=
    if decide (newSum = 0) then delete priorityTag summedPriorityTags
    else <[priorityTag := newSum]> summedPriorityTags in
  let perThingDeltas' :=
    match priorityTagToHeapNodes !! priorityTag with
    | Some nodes =>
        foldl (λ per node, <[node := default 0 (per !! node) + delta]> per)
              perThingDeltas nodes
    | None => perThingDeltas
    end in
  (summedPriorityTags', perThingDeltas').

(** Phase 2 of [setPriorityBoostTags], over the elements the iterator yields. *)
Fixpoint applyAggregateDeltas (elements : list Z) (s : TaskPriorities)
  : Completion unit TaskPriorities :=
  match elements with
  | [] => Normal () s
  | element :: rest =>
      match array_pattern_of_number element with
      | None => Throw (TypeError "element is not iterable") s
      | Some (node, aggregateDelta) =>
          let s' :=
            match node_at s node with
            | Some nd => _reprioritizeHeapNode node (key nd - aggregateDelta) s
            | None => s
            end in
          applyAggregateDeltas rest s'
      end
  end.

(** The first loop of phase 1, over the entries [items]: new and changed
    values. *)
Definition accumulateNewValues (existingValues : gmap PriorityTag Z)
  (priorityTagToHeapNodes : gmap PriorityTag (list NodeRef))
  (items : list (PriorityTag * Z))
  (acc : gmap PriorityTag Z * gmap NodeRef Z) : gmap PriorityTag Z * gmap NodeRef Z :=
  foldl (λ acc '(priorityTag, newPriority),
           let oldPriority := default 0 (existingValues !! priorityTag) in
           let priorityDelta := newPriority - oldPriority in
           applyDelta priorityTagToHeapNodes priorityTag priorityDelta acc)
        acc items.

(** The second loop of phase 1, over the entries [items]: deletions. *)
Definition accumulateDeletions (newValues : gmap PriorityTag Z)
  (priorityTagToHeapNodes : gmap PriorityTag (list NodeRef))
  (items : list (PriorityTag * Z))
  (acc : gmap PriorityTag Z * gmap NodeRef Z) : gmap PriorityTag Z * gmap NodeRef Z :=
  foldl (λ acc '(priorityTag, oldPriority),
           if decide (is_Some (newValues !! priorityTag)) then acc
           else applyDelta priorityTagToHeapNodes priorityTag (- oldPriority) acc)
        acc items.

(** [setPriorityBoostTags(owningId, tagsWithValues)]; [None] is [null]. *)
Definition setPriorityBoostTags (owningId : PriorityOwner)
  (tagsWithValues : option (gmap PriorityTag Z)) (s : TaskPriorities)
  : Completion unit TaskPriorities :=
  let existingValues := default ∅ (_priorityTagsByOwner s !! owningId) in
  let newValues := default ∅ tagsWithValues in
  let perThingDeltas : gmap NodeRef Z := ∅ in
  let summedPriorityTags := _summedPriorityTags s in
  let priorityTagToHeapNodes := _priorityTagToHeapNodes s in
  let s1 :=
    match tagsWithValues with
    | Some m => with_priorityTagsByOwner <[owningId := m]> s
    | None => with_priorityTagsByOwner (delete owningId) s
    end in
  (* -- Phase 1: accumulate deltas (and update sums) *)
  match Map_items "newValues" newValues with
  | inl e => Throw e s1
  | inr items =>
      let acc1 :=
        accumulateNewValues existingValues priorityTagToHeapNodes items
          (summedPriorityTags, perThingDeltas) in
      match Map_items "existingValues" existingValues with
      | inl e => Throw e (with_summedPriorityTags (λ _, acc1.1) s1)
      | inr items' =>
          let acc2 :=
            accumulateDeletions newValues priorityTagToHeapNodes items' acc1 in
          (* -- Phase 2: update the priority heap *)
          applyAggregateDeltas (snd <$> map_to_list acc2.2)
                               (with_summedPriorityTags (λ _, acc2.1) s1)
      end
  end.

(** ** Tasks

    The plan and execute functions are generators run by [co.wrap]: each
    [yield] hands an operation to the outside and resumes with its result, or
    with the exception it was rejected with.  A run is the list of operations
    issued, in order, and the way the function ended. *)

#[local] Set Warnings "-register-all".

Inductive JSValue :=
| JSUndefined
| JSNumber (z : Z)
| JSString (s : string)
| JSArray (elements : list JSValue)
| JSObject (ref : nat).

(** [{add, remove}], the pending flag changes of one message. *)
Record Changes := {
  add : option (list string);
  remove : option (list string)
}.

(** The persistent state of the [store_flags] complex task. *)
Record StoreFlagsState := { umidChanges : gmap string Changes }.

Record Marker := { marker_umid : string; marker_accountId : string }.

Record FolderInfo := { folder_path : string }.

Record Account := { folders : gmap string FolderInfo }.

Definition getFolderById (account : Account) (folderId : string)
  : option FolderInfo :=
  folders account !! folderId.

(** The request of [append_message]. *)
Record AppendRequest := {
  req_accountId : string;
  req_folderId : string;
  req_messageInfo : JSValue;
  req_umid : string
}.

(** The argument of [ctx.finishTask]. *)
Inductive FinishArgs :=
| TaskState (taskState : gmap string JSValue)
| ComplexTaskState (complexTaskState : StoreFlagsState)
| MutationsAndNewData (conversations headerIdMaps : JSValue)
    (umidNames : string * JSValue)
    (newConversations : JSValue) (messages : list JSValue) (tasks : JSValue).

Inductive Event :=
| AcquireAccount (accountId : string)
| BeginMutate (umid : string)
| DeriveMessageBlob (messageInfo : JSValue)
| PimapStore (folderInfo : option FolderInfo) (uid : Z) (item : string)
             (flags : list string)
| PimapUpload (path : string) (message : string)
| FinishTask (args : FinishArgs).

(** How the operations a task waits for turn out, and what the identifiers it
    takes from the global scope are bound to. *)
Record World := {
  acquireAccount : string → JSError + Account;
  beginMutate : string → JSError + option (string * Z);
  deriveMessageBlob : JSValue → JSError + string;
  pimap_store : option FolderInfo → Z → string → list string → JSError + ();
  pimap_upload : string → string → JSError + ();
  finishTask : FinishArgs → JSError + ();
  globals : string → option JSValue
}.

Definition Co (A : Type) : Type := list Event * (JSError + A).

#[export] Instance Co_ret : MRet Co := λ A a, ([], inr a).

#[export] Instance Co_bind : MBind Co := λ A B f c,
  match c with
  | (tr, inl e) => (tr, inl e)
  | (tr, inr a) => let '(tr', r) := f a in (tr ++ tr', r)
  end.

(** [yield op]: the operation is issued and its outcome comes back. *)
Definition yield {A} (op : Event) (outcome : JSError + A) : Co A := ([op], outcome).

Definition throw {A} (e : JSError) : Co A := ([], inl e).

(** Reading a property of, or destructuring, a value that may be [undefined]. *)
Definition deref {A} (what : string) (o : option A) : Co A :=
  match o with
  | Some a => mret a
  | None => throw (TypeError (what +:+ " is undefined"))
  end.

(** An identifier that no enclosing scope declares. *)
Definition global (w : World) (name : string) : Co JSValue :=
  match globals w name with
  | Some v => mret v
  | None => throw (ReferenceError name)
  end.

Definition trace {A} (c : Co A) : list Event := c.1.

Definition outcome {A} (c : Co A) : JSError + A := c.2.

Definition is_finishTask (ev : Event) : bool :=
  match ev with FinishTask _ => true | _ => false end.

(** How many times a run called [ctx.finishTask]. *)
Definition finishTask_calls {A} (c : Co A) : nat :=
  length (filter is_finishTask (trace c)).

(** Modelled from the spec: [shallowClone] of js/util is not part of the
    sources at hand.  A shallow clone is a new object with every field of the
    original, each with the value it has there. *)
Definition shallowClone (o : gmap string JSValue) : gmap string JSValue := o.

(** [append_message]'s [plan(ctx, rawTask)] *)
Definition append_message_plan (w : World) (rawTask : gmap string JSValue)
  : Co () :=
  let plannedTask := shallowClone rawTask in
  let plannedTask := <["resources" := JSArray []]> plannedTask in
  let plannedTask := <["exclusiveResources" := JSArray []]> plannedTask in
  let plannedTask := <["priorityTags" := JSArray []]> plannedTask in
  yield (FinishTask (TaskState plannedTask))
        (finishTask w (TaskState plannedTask)).

(** [new FileReaderSync().readAsBinaryString(composedBlob)] *)
Definition readAsBinaryString (composedBlob : string) : string := composedBlob.

(** [append_message]'s [execute(ctx, req)].  [blob] and the values handed to
    [finishTask] are not declared in the function or its module. *)
Definition append_message_execute (w : World) (req : AppendRequest) : Co () :=
  account ← yield (AcquireAccount (req_accountId req))
                  (acquireAccount w (req_accountId req));
  let folderInfo := getFolderById account (req_folderId req) in
  composedBlob ← yield (DeriveMessageBlob (req_messageInfo req))
                       (deriveMessageBlob w (req_messageInfo req));
  let composedString := readAsBinaryString composedBlob in
  messageText ← global w "blob";
  folderInfo ← deref "folderInfo" folderInfo;
  let path := folder_path folderInfo in
  _ ← yield (PimapUpload path composedString)
            (pimap_upload w path composedString);
  modifiedConversations ← global w "modifiedConversations";
  headerIdWrites ← global w "headerIdWrites";
  messageId ← global w "messageId";
  newConversations ← global w "newConversations";
  messageInfo ← global w "messageInfo";
  extraTasks ← global w "extraTasks";
  let args :=
    MutationsAndNewData modifiedConversations headerIdWrites
      (req_umid req, messageId) newConversations [messageInfo] extraTasks in
  yield (FinishTask args) (finishTask w args).

Definition nonempty (flags : option (list string)) : option (list string) :=
  match flags with
  | Some (f :: l) => Some (f :: l)
  | _ => None
  end.

(** [store_flags]'s [execute(ctx, persistentState, memoryState, marker)];
    [imapDataName] comes from the mix-in the task is defined with. *)
Definition store_flags_execute (w : World) (imapDataName : string)
  (persistentState : StoreFlagsState) (marker : Marker) : Co () :=
  let umidChanges := umidChanges persistentState in
  let changes := umidChanges !! marker_umid marker in
  account ← yield (AcquireAccount (marker_accountId marker))
                  (acquireAccount w (marker_accountId marker));
  fromDb ← yield (BeginMutate (marker_umid marker))
                 (beginMutate w (marker_umid marker));
  '(folderId, uid) ← deref "umidLocations.get(marker.umid)" fromDb;
  let folderInfo := getFolderById account folderId in
  changes ← deref "changes" changes;
  _ ← match nonempty (add changes) with
      | Some flags =>
          yield (PimapStore folderInfo uid ("+" +:+ imapDataName) flags)
                (pimap_store w folderInfo uid ("+" +:+ imapDataName) flags)
      | None => mret ()
      end;
  _ ← match nonempty (remove changes) with
      | Some flags =>
          yield (PimapStore folderInfo uid ("-" +:+ imapDataName) flags)
                (pimap_store w folderInfo uid ("-" +:+ imapDataName) flags)
      | None => mret ()
      end;
  let persistentState := {| umidChanges := delete (marker_umid marker) umidChanges |} in
  yield (FinishTask (ComplexTaskState persistentState))
        (finishTask w (ComplexTaskState persistentState)).

(** Modelled from the spec: the Resource Gate is not part of the sources at
    hand.  Section 4.2: all the resources a unit names are acquired iff all of
    them are free, and a unit naming none is ready at once.  [held] tells the
    resources some other unit holds. *)
Definition immediately_ready (held : JSValue → bool) (task : gmap string JSValue)
  : bool :=
  match task !! "resources", task !! "exclusiveResources" with
  | Some (JSArray resources), Some (JSArray exclusiveResources) =>
      forallb (λ r, negb (held r)) (resources ++ exclusiveResources)
  | _, _ => false
  end.


Definition working_world : World :=
  {| acquireAccount :=
       λ _, inr {| folders := {["folder1" := {| folder_path := "INBOX" |}]} |};
     beginMutate := λ _, inr (Some ("folder1", 42));
     deriveMessageBlob := λ _, inr "message";
     pimap_store := λ _ _ _ _, inr ();
     pimap_upload := λ _ _, inr ();
     finishTask := λ _, inr ();
     globals := λ _, None |}.

(** A raw [append_message] task that names a resource and a tag of its own. *)
Definition raw_append : gmap string JSValue :=
  {["type" := JSString "append_message"; "accountId" := JSString "acct";
    "resources" := JSArray [JSString "online"];
    "priorityTags" := JSArray [JSString "view:sent"]]}.

Definition marker_m : Marker := {| marker_umid := "m"; marker_accountId := "acct" |}.

Definition pending_seen : StoreFlagsState :=
  {| umidChanges :=
       {["m" := {| add := Some ["\Seen"]; remove := None |};
         "n" := {| add := None; remove := Some ["\Flagged"] |}]} |}.

Definition request_r : AppendRequest :=
  {| req_accountId := "acct"; req_folderId := "folder1";
     req_messageInfo := JSObject 1; req_umid := "u" |}.

(** ** Measures used in the statements *)

Definition sumZ (l : list Z) : Z := foldr Z.add 0 l.

(** The weight the engine records for a tag, 0 when it records none. *)
Definition tag_weight (s : TaskPriorities) (priorityTag : PriorityTag) : Z :=
  default 0 (_summedPriorityTags s !! priorityTag).

(** Effective priority: own relative priority plus the weights of the tags. *)
Definition effective_priority (s : TaskPriorities) (t : TaskThing) : Z :=
  default 0 (thing_relPriority t) + sumZ (tag_weight s <$> thing_priorityTags t).

(** The sum of the boosts the owners assert for a tag. *)
Definition asserted (byOwner : gmap PriorityOwner (gmap PriorityTag Z))
  (priorityTag : PriorityTag) : Z :=
  map_fold (λ _ tags sum, default 0 (tags !! priorityTag) + sum) 0 byOwner.

(** Boost accounting: every recorded sum is the sum of the asserted boosts, and
    no row holds 0. *)
Definition accounted (byOwner : gmap PriorityOwner (gmap PriorityTag Z))
  (summed : gmap PriorityTag Z) : Prop :=
  (∀ tag, default 0 (summed !! tag) = asserted byOwner tag) ∧
  (∀ tag, summed !! tag ≠ Some 0).

(** The tasks and markers the heap holds, oldest node first. *)
Definition entries (s : TaskPriorities) : list TaskThing :=
  omap (λ n, value <$> node_at s n) (FibonacciHeap.live (_prioritizedTasks s)).

(** The documented invariant of [_taskIdToHeapNode]: an id is mapped to the
    node of the heap that holds the task or marker of that id. *)
Definition tracked (s : TaskPriorities) : Prop :=
  ∀ id n, _taskIdToHeapNode s !! id = Some n →
    n ∈ FibonacciHeap.live (_prioritizedTasks s) ∧
    ∃ nd, node_at s n = Some nd ∧ thing_id (value nd) = id.

(** The keys of the heap are the negated effective priorities of what its
    nodes hold. *)
Definition keyed (s : TaskPriorities) : Prop :=
  ∀ n, n ∈ FibonacciHeap.live (_prioritizedTasks s) →
    ∃ nd, node_at s n = Some nd ∧ key nd = - effective_priority s (value nd).

(** A sequence of [prioritizeTaskThing] calls. *)
Definition prioritizeAll (ts : list TaskThing) (s : TaskPriorities)
  : TaskPriorities :=
  foldl (λ s t, prioritizeTaskThing t s) s ts.

(** No call of the sequence gives an id already in the index a larger key,
    that is, a lower priority, than its node has. *)
Fixpoint no_lowering (ts : list TaskThing) (s : TaskPriorities) : Prop :=
  match ts with
  | [] => True
  | t :: ts' =>
      (∀ n nd, _taskIdToHeapNode s !! thing_id t = Some n →
               node_at s n = Some nd → nodeKey s t ≤ key nd) ∧
      no_lowering ts' (prioritizeTaskThing t s)
  end.

(** A simple task without tags, as the scenarios of the specification use. *)
Definition simple_task (id : TaskId) (relPriority : Z) : TaskThing :=
  WrappedTask id {| pt_type := "append_message"; pt_priorityTags := [];
                    pt_relPriority := Some relPriority |}.

(** Pops until the heap is empty or [fuel] runs out; the tasks in pop order. *)
Fixpoint drain (fuel : nat) (s : TaskPriorities) : list TaskThing :=
  match fuel with
  | O => []
  | S fuel' =>
      match popNextAvailableTask s with
      | Normal t s' => t :: drain fuel' s'
      | Throw _ _ => []
      end
  end.

(** Task a (priority 5), then task b (priority 3). *)
Definition two_tasks : TaskPriorities :=
  prioritizeTaskThing (simple_task "b" 3)
    (prioritizeTaskThing (simple_task "a" 5) new_TaskPriorities).

(** A task is prioritized, then prioritized again with a lower priority. *)
Definition lowered : TaskPriorities :=
  prioritizeTaskThing (simple_task "a" 1)
    (prioritizeTaskThing (simple_task "a" 5) new_TaskPriorities).

(** Task a (priority 5), task b (priority 3), then a again with priority 1. *)
Definition superseded : TaskPriorities :=
  prioritizeTaskThing (simple_task "a" 1) two_tasks.

Ltac co_unfold :=
  unfold finishTask_calls, trace, outcome, yield, throw, deref, global,
    mbind, mret, Co_bind, Co_ret in *; simpl in *.

(** Splits on how each awaited operation, lookup and test of a run turns out. *)
Ltac co_step :=
  match goal with
  | |- context [acquireAccount ?w ?x] => destruct (acquireAccount w x) eqn:?
  | |- context [beginMutate ?w ?x] =>
      destruct (beginMutate w x) as [?|[[? ?]|]] eqn:?
  | |- context [deriveMessageBlob ?w ?x] => destruct (deriveMessageBlob w x) eqn:?
  | |- context [pimap_store ?w ?a ?b ?c ?d] =>
      destruct (pimap_store w a b c d) as [?|[]] eqn:?
  | |- context [pimap_upload ?w ?a ?b] =>
      destruct (pimap_upload w a b) as [?|[]] eqn:?
  | |- context [finishTask ?w ?a] => destruct (finishTask w a) as [?|[]] eqn:?
  | |- context [globals ?w ?a] => destruct (globals w a) eqn:?
  | |- context [nonempty ?x] => destruct (nonempty x) eqn:?
  | |- context [getFolderById ?a ?f] => destruct (getFolderById a f) eqn:?
  | |- context [umidChanges ?p !! ?k] => destruct (umidChanges p !! k) eqn:?
  end.

Ltac co_cases := co_unfold; repeat (co_step; co_unfold).

(** ** Further measures *)

(** How many times [k] occurs in [l]. *)
Definition occurrences {A} `{EqDecision A} (k : A) (l : list A) : nat :=
  length (filter (λ x, x = k) l).

(** No tag is mapped to an empty array, and the references under the tags
    satisfy [Q]. *)
Definition tidy_tags (Q : NodeRef → Prop) (m : gmap PriorityTag (list NodeRef))
  : Prop :=
  ∀ tag nodes, m !! tag = Some nodes → nodes ≠ [] ∧ ∀ n, n ∈ nodes → Q n.

(** The reference denotes a node object. *)
Definition allocated (s : TaskPriorities) (n : NodeRef) : Prop :=
  (n < length (FibonacciHeap.nodes (_prioritizedTasks s)))%nat.

(** What every operation keeps: the references in the heap are distinct and
    denote allocated nodes, so do the references the two maps hold, and no tag
    is mapped to an empty array. *)
Definition well_formed (s : TaskPriorities) : Prop :=
  NoDup (FibonacciHeap.live (_prioritizedTasks s)) ∧
  (∀ n, n ∈ FibonacciHeap.live (_prioritizedTasks s) → allocated s n) ∧
  (∀ id n, _taskIdToHeapNode s !! id = Some n → allocated s n) ∧
  tidy_tags (allocated s) (_priorityTagToHeapNodes s).

(** What [setup_tag] and [cleanup_tag] do to the entry of the tag they are
    called with. *)
Definition setup_entry (priorityNode : NodeRef) (o : option (list NodeRef))
  : option (list NodeRef) :=
  Some (default [] o ++ [priorityNode]).

Definition cleanup_entry (priorityNode : option NodeRef)
  (o : option (list NodeRef)) : option (list NodeRef) :=
  match o with
  | None => None
  | Some nodes =>
      match splice_node priorityNode nodes with
      | [] => None
      | nodes' => Some nodes'
      end
  end.

(** A tagged marker, for the examples. *)
Definition tagged_marker (id : TaskId) (tags : list PriorityTag) (relPriority : Z)
  : TaskThing :=
  TaskMarker id "store_flags" tags (Some relPriority).

(** The index after a task or marker has come and gone: as before, with one
    more node object, of key [k] and value [t], that the heap does not hold. *)
Definition with_dead_node (k : Z) (t : TaskThing) (s : TaskPriorities)
  : TaskPriorities :=
  with_heap (λ h, {| FibonacciHeap.nodes :=
                       FibonacciHeap.nodes h ++ [{| key := k; value := t |}];
                     FibonacciHeap.live := FibonacciHeap.live h |}) s.

(** The store commands [store_flags] issues for a change-set: the flags to
    add, then the flags to remove, each only when there are some. *)
Definition store_commands (imapDataName : string) (folderInfo : option FolderInfo)
  (uid : Z) (changes : Changes) : list Event :=
  match nonempty (add changes) with
  | Some flags => [PimapStore folderInfo uid ("+" +:+ imapDataName) flags]
  | None => []
  end
  ++ match nonempty (remove changes) with
     | Some flags => [PimapStore folderInfo uid ("-" +:+ imapDataName) flags]
     | None => []
     end.

Definition is_pimapUpload (ev : Event) : bool :=
  match ev with PimapUpload _ _ => true | _ => false end.

Definition is_pimapStore (ev : Event) : bool :=
  match ev with PimapStore _ _ _ _ => true | _ => false end.

(** An account that knows no folder, and a world that hands it out. *)
Definition folderless_world : World :=
  {| acquireAccount := λ _, inr {| folders := ∅ |};
     beginMutate := λ _, inr (Some ("folder1", 42));
     deriveMessageBlob := λ _, inr "message";
     pimap_store := λ _ _ _ _, inr ();
     pimap_upload := λ _ _, inr ();
     finishTask := λ _, inr ();
     globals := λ _, Some JSUndefined |}.

(** A world in which the server rejects every store command. *)
Definition rejecting_world : World :=
  {| acquireAccount :=
       λ _, inr {| folders := {["folder1" := {| folder_path := "INBOX" |}]} |};
     beginMutate := λ _, inr (Some ("folder1", 42));
     deriveMessageBlob := λ _, inr "message";
     pimap_store := λ _ _ _ _, inl (Rejected "NO");
     pimap_upload := λ _ _, inr ();
     finishTask := λ _, inr ();
     globals := λ _, None |}.

(** A marker of which the persistent state holds no change-set. *)
Definition marker_unknown : Marker :=
  {| marker_umid := "gone"; marker_accountId := "acct" |}.

(** ** The logging shim for browserbox

    The first module of js/ext/axeshim-browserbox.js.  A call of [logic]
    records an event of a type in a scope; [logic.isCensored] tells whether
    sensitive data must stay out of the log. *)

Module AxeShim.

Record LogicEvent := {
  event_scope : string;
  event_type : string;
  event_msg : string
}.

Record Logic := { isCensored : bool; events : list LogicEvent }.

(** [logic(scope, type, { msg })] *)
Definition logic (scope type msg : string) (l : Logic) : Logic :=
  {| isCensored := isCensored l;
     events := events l
               ++ [{| event_scope := scope; event_type := type; event_msg := msg |}] |}.

(** [const scope = logic.scope('BrowserBox')] *)
Definition scope : string := "BrowserBox".

Definition debug (ignoredTag msg : string) (l : Logic) : Logic :=
  if negb (isCensored l) then logic scope "debug" msg l else l.

Definition log (ignoredTag msg : string) (l : Logic) : Logic :=
  logic scope "log" msg l.

Definition warn (ignoredTag msg : string) (l : Logic) : Logic :=
  logic scope "warn" msg l.

Definition error (ignoredTag msg : string) (l : Logic) : Logic :=
  logic scope "error" msg l.

(** A call of one of the four functions of the shim. *)
Inductive Call :=
| Debug (tag msg : string)
| Log (tag msg : string)
| Warn (tag msg : string)
| Error (tag msg : string).

Definition call (c : Call) (l : Logic) : Logic :=
  match c with
  | Debug tag msg => debug tag msg l
  | Log tag msg => log tag msg l
  | Warn tag msg => warn tag msg l
  | Error tag msg => error tag msg l
  end.

Definition calls (cs : list Call) (l : Logic) : Logic :=
  foldl (λ l c, call c l) l cs.

(** The event a call leaves in the log, if any. *)
Definition event_of (censored : bool) (c : Call) : option LogicEvent :=
  match c with
  | Debug _ msg =>
      if censored then None
      else Some {| event_scope := "BrowserBox"; event_type := "debug";
                   event_msg := msg |}
  | Log _ msg =>
      Some {| event_scope := "BrowserBox"; event_type := "log"; event_msg := msg |}
  | Warn _ msg =>
      Some {| event_scope := "BrowserBox"; event_type := "warn"; event_msg := msg |}
  | Error _ msg =>
      Some {| event_scope := "BrowserBox"; event_type := "error"; event_msg := msg |}
  end.

End AxeShim.

(** ** The folder list of an ActiveSync account

    The closures and the retry loop of [syncFolders], in the second module of
    the file that defines [store_flags].  [normalizeFolder] and the sync state
    helper are not part of the sources at hand: they are parameters, acting on
    a state [St] that stands for the sync state and the folder TOC they read
    and write. *)

(** The arguments of a folder the server reports ([TypeNum] is its [Type]). *)
Record FolderArgs := {
  ServerId : string;
  ParentId : string;
  DisplayName : string;
  TypeNum : Z
}.

(** What [normalizeFolder] returns: [null] when the parent of the folder is
    not known yet, [true], or the info of a new folder. *)
Inductive MaybeFolderInfo (Info : Type) :=
| IsNull
| IsTrue
| IsInfo (info : Info).
Arguments IsNull {Info}.
Arguments IsTrue {Info}.
Arguments IsInfo {Info} info.

(** The values [modifiedFolders] is given: [true] and [null]. *)
Inductive ModifiedFolder := ModifiedTrue | ModifiedNull.

(** The variables of [syncFolders] that its closures and its loop write.  A
    key of [modifiedFolders] may be [undefined] ([None]). *)
Record SyncLocals (St Info : Type) := {
  syncState : St;
  newFolders : list Info;
  modifiedFolders : gmap (option string) ModifiedFolder;
  deferredFolders : list FolderArgs
}.
Arguments syncState {St Info} _.
Arguments newFolders {St Info} _.
Arguments modifiedFolders {St Info} _.
Arguments deferredFolders {St Info} _.

Section syncFolders.

Context {St Info : Type}.

(** [normalizeFolder(...)], with the id maker and the maps it is handed. *)
Variable normalizeFolder : FolderArgs → St → MaybeFolderInfo Info * St.

(** [syncState.addedFolder(maybeFolderInfo)] *)
Variable addedFolder : MaybeFolderInfo Info → St → St.

(** [syncState.removedFolder(serverId)] *)
Variable removedFolder : string → St → St.

(** [syncState.serverIdToFolderId.get(serverId)] *)
Variable serverIdToFolderId : St → string → option string.

(** [tryAndAddFolder(folderArgs)].  In the branch for [true],
    [maybeFolderInfo.id] is a property of a boolean, that is, [undefined]. *)
Definition tryAndAddFolder (folderArgs : FolderArgs) (l : SyncLocals St Info)
  : SyncLocals St Info :=
  let '(maybeFolderInfo, st) := normalizeFolder folderArgs (syncState l) in
  match maybeFolderInfo with
  | IsNull =>
      {| syncState := st; newFolders := newFolders l;
         modifiedFolders := modifiedFolders l;
         deferredFolders := deferredFolders l ++ [folderArgs] |}
  | IsTrue =>
      {| syncState := addedFolder maybeFolderInfo st; newFolders := newFolders l;
         modifiedFolders := <[None := ModifiedTrue]> (modifiedFolders l);
         deferredFolders := deferredFolders l |}
  | IsInfo info =>
      {| syncState := addedFolder maybeFolderInfo st;
         newFolders := newFolders l ++ [info];
         modifiedFolders := modifiedFolders l;
         deferredFolders := deferredFolders l |}
  end.

(** The listener for [remove]: the folder id is looked up after the sync state
    has been told of the removal. *)
Definition onRemove (serverId : string) (l : SyncLocals St Info)
  : SyncLocals St Info :=
  let st := removedFolder serverId (syncState l) in
  let folderId := serverIdToFolderId st serverId in
  {| syncState := st; newFolders := newFolders l;
     modifiedFolders := <[folderId := ModifiedNull]> (modifiedFolders l);
     deferredFolders := deferredFolders l |}.

(** One turn of the [while] loop up to its test: the deferred folders are
    taken, the list is emptied, and each of them is tried again. *)
Definition retryPass (l : SyncLocals St Info) : SyncLocals St Info :=
  let processFolders := deferredFolders l in
  foldl (λ l folder, tryAndAddFolder folder l)
        {| syncState := syncState l; newFolders := newFolders l;
           modifiedFolders := modifiedFolders l; deferredFolders := [] |}
        processFolders.

(** [while (deferredFolders.length) { ... }]: [None] when [fuel] turns do not
    end the loop, [inl] the message of the error it throws, [inr] the
    variables when it ends. *)
Fixpoint retryDeferred (fuel : nat) (l : SyncLocals St Info)
  : option (string + SyncLocals St Info) :=
  match deferredFolders l with
  | [] => Some (inr l)
  | _ :: _ =>
      match fuel with
      | O => None
      | S fuel' =>
          let l' := retryPass l in
          if decide (length (deferredFolders l) = length (deferredFolders l'))
          then Some (inl "got some orphaned folders")
          else retryDeferred fuel' l'
      end
  end.

End syncFolders.

(** A sync state for the examples: the server ids known so far.  A folder is
    normalized once its parent is known, the root being ["0"]. *)
Definition known_parent (folderArgs : FolderArgs) (known : list string)
  : MaybeFolderInfo FolderArgs * list string :=
  if decide (ParentId folderArgs = "0" ∨ ParentId folderArgs ∈ known)
  then (IsInfo folderArgs, known)
  else (IsNull, known).

Definition remember (m : MaybeFolderInfo FolderArgs) (known : list string)
  : list string :=
  match m with
  | IsInfo folderArgs => ServerId folderArgs :: known
  | _ => known
  end.

Definition folder (serverId parentId : string) : FolderArgs :=
  {| ServerId := serverId; ParentId := parentId; DisplayName := serverId;
     TypeNum := 1 |}.

Definition locals_with (deferred : list FolderArgs)
  : SyncLocals (list string) FolderArgs :=
  {| syncState := []; newFolders := []; modifiedFolders := ∅;
     deferredFolders := deferred |}.

(** ** Sequences of operations on the index *)

(** A call of one of the four mutating methods of [TaskPriorities]; a caller
    that catches what a method throws goes on with the index as the method
    left it. *)
Inductive Operation :=
| Prioritize (taskThing : TaskThing)
| Pop
| Remove (taskId : TaskId)
| Boost (owningId : PriorityOwner) (tagsWithValues : option (gmap PriorityTag Z)).

Definition perform (op : Operation) (s : TaskPriorities) : TaskPriorities :=
  match op with
  | Prioritize taskThing => prioritizeTaskThing taskThing s
  | Pop => final_state (popNextAvailableTask s)
  | Remove taskId => removeTaskThing taskId s
  | Boost owningId tagsWithValues =>
      final_state (setPriorityBoostTags owningId tagsWithValues s)
  end.

Definition performAll (ops : list Operation) (s : TaskPriorities) : TaskPriorities :=
  foldl (λ s op, perform op s) s ops.

(** ** The flags of a message (clientapi/mail_message.js) *)

Module MailMessage.

(** [flag[0]]: the string of the first character of a flag, [undefined] for
    the empty string. *)
Definition first (flag : string) : option string :=
  match flag with
  | EmptyString => None
  | String c _ => Some (String c EmptyString)
  end.

(** [flags[i][0] !== '\\'] *)
Definition kept (flag : string) : Prop := first flag ≠ Some "\".

(** [filterOutBuiltinFlags(flags)]: the loop runs from the last flag to the
    first and pushes the flags it keeps. *)
Definition filterOutBuiltinFlags (flags : list string) : list string :=
  foldl (λ outFlags flag, if decide (kept flag) then outFlags ++ [flag] else outFlags)
        [] (reverse flags).

(** [flags.indexOf(flag)] *)
Definition indexOf (flags : list string) (flag : string) : Z :=
  match list_find (λ f, f = flag) flags with
  | Some (i, _) => Z.of_nat i
  | None => -1
  end.

(** The fields [__update] derives from [wireRep.flags]. *)
Record FlagFields := {
  isRead : bool;
  isStarred : bool;
  isRepliedTo : bool;
  isForwarded : bool;
  isJunk : bool;
  tags : list string
}.

Definition update_flags (flags : list string) : FlagFields :=
  {| isRead := bool_decide (indexOf flags "\Seen" ≠ -1);
     isStarred := bool_decide (indexOf flags "\Flagged" ≠ -1);
     isRepliedTo := bool_decide (indexOf flags "\Answered" ≠ -1);
     isForwarded := bool_decide (indexOf flags "$Forwarded" ≠ -1);
     isJunk := bool_decide (indexOf flags "$Junk" ≠ -1);
     tags := filterOutBuiltinFlags flags |}.

End MailMessage.

(** ** Search patterns (searchPatternFromArgs) *)

Module SearchPattern.

(** The values a filter is given as its arguments: primitives, a [RegExp]
    (the pattern and the flags it was made from), and any other object, of
    which only the [phrase] property is read ([Undefined] when it has none). *)
Inductive Value :=
| Undefined
| Null
| Bool (b : bool)
| Number (n : Z)
| Str (s : string)
| RegExp (pattern flags : string)
| Object (phrase : Value).

Definition truthy (v : Value) : bool :=
  match v with
  | Undefined | Null => false
  | Bool b => b
  | Number n => bool_decide (n ≠ 0)
  | Str s => bool_decide (s ≠ "")
  | RegExp _ _ | Object _ => true
  end.

(** [args.phrase], read once [args] is known to be truthy: a primitive has no
    such property. *)
Definition get_phrase (args : Value) : Value :=
  match args with
  | Object phrase => phrase
  | _ => Undefined
  end.

(** The characters of the class [[\\^$*+?.()|[\]{}]]. *)
Definition special : list Ascii.ascii :=
  String.list_ascii_of_string "\^$*+?.()|[]{}".

(** [str.replace(/[\\^$*+?.()|[\]{}]/g, '\\$&')] *)
Fixpoint regExpEscape (str : string) : string :=
  match str with
  | EmptyString => EmptyString
  | String c rest =>
      if decide (c ∈ special)
      then "\" +:+ String c (regExpEscape rest)
      else String c (regExpEscape rest)
  end.

Definition no_pattern : string :=
  "unable to figure out a search pattern from the args".

(** [searchPatternFromArgs(args)]: [inl] the message of the error thrown. *)
Definition searchPatternFromArgs (args : Value) : string + Value :=
  let phrase :=
    match args with
    | Str _ | RegExp _ _ => inr args
    | _ =>
        if truthy args && truthy (get_phrase args)
        then inr (get_phrase args)
        else inl no_pattern
    end in
  match phrase with
  | inr (Str s) => inr (RegExp (regExpEscape s) "i")
  | other => other
  end.

(** The string a pattern spells when it is made of nothing but characters
    that stand for themselves and escaped special characters; [None] for a
    pattern with a special character that is not escaped or a backslash that
    escapes anything else. *)
Fixpoint literal_text (pattern : string) : option string :=
  match pattern with
  | EmptyString => Some EmptyString
  | String c rest =>
      if decide (String c EmptyString = "\")
      then match rest with
           | EmptyString => None
           | String c' rest' =>
               if decide (c' ∈ special)
               then String c' <$> literal_text rest'
               else None
           end
      else if decide (c ∈ special) then None
           else String c <$> literal_text rest
  end.

End SearchPattern.



(** A global scope that binds each identifier [append_message] leaves free to
    a value of its own. *)
Definition scope_bindings : gmap string JSValue :=
  {["blob" := JSString "text";
    "modifiedConversations" := JSObject 10;
    "headerIdWrites" := JSObject 11;
    "messageId" := JSString "msg.1";
    "newConversations" := JSArray [];
    "messageInfo" := JSObject 12;
    "extraTasks" := JSArray [JSObject 13]]}.

Definition scoped_world : World :=
  {| acquireAccount :=
       λ _, inr {| folders := {["folder1" := {| folder_path := "INBOX" |}]} |};
     beginMutate := λ _, inr (Some ("folder1", 42));
     deriveMessageBlob := λ _, inr "message";
     pimap_store := λ _ _ _ _, inr ();
     pimap_upload := λ _ _, inr ();
     finishTask := λ _, inr ();
     globals := λ name, scope_bindings !! name |}.


(** ** hasTasksToExecute *)

(** C10.  [hasTasksToExecute] returns what the heap's [isEmpty] returns: [true]
    exactly when the heap holds no node, [false] when it holds one, the
    opposite of what its name asks. *)
Theorem hasTasksToExecute_is_isEmpty (s : TaskPriorities) :
  hasTasksToExecute s = FibonacciHeap.isEmpty (_prioritizedTasks s) ∧
  hasTasksToExecute s = bool_decide (FibonacciHeap.live (_prioritizedTasks s) = []) ∧
  hasTasksToExecute s
  = negb (bool_decide (0 < length (FibonacciHeap.live (_prioritizedTasks s)))%nat).
Proof.
  unfold hasTasksToExecute, FibonacciHeap.isEmpty.
  destruct (FibonacciHeap.live (_prioritizedTasks s)) as [|n l] eqn:Hl.
  - split; [done|]. split; [by rewrite bool_decide_eq_true_2|].
    rewrite bool_decide_eq_false_2; [done|]. simpl. lia.
  - split; [done|]. split; [by rewrite bool_decide_eq_false_2|].
    rewrite bool_decide_eq_true_2; [done|]. simpl. lia.
Qed.

Lemma hasTasksToExecute_new : hasTasksToExecute new_TaskPriorities = true.
Proof. reflexivity. Qed.

Lemma hasTasksToExecute_after_insert (t : TaskThing) (s : TaskPriorities) :
  _taskIdToHeapNode s !! thing_id t = None →
  hasTasksToExecute (prioritizeTaskThing t s) = false.
Proof.
  intros Hfresh. unfold prioritizeTaskThing. rewrite Hfresh. simpl.
  unfold hasTasksToExecute, FibonacciHeap.isEmpty. simpl.
  by destruct (FibonacciHeap.live (_prioritizedTasks s)).
Qed.

(** ** popNextAvailableTask on an empty index *)

Lemma with_heap_id (s : TaskPriorities) :
  with_heap (λ _, _prioritizedTasks s) s = s.
Proof. by destruct s. Qed.

Lemma isEmpty_extractMinimum (h : FibonacciHeap.t) :
  FibonacciHeap.isEmpty h = true → FibonacciHeap.extractMinimum h = (None, h).
Proof.
  unfold FibonacciHeap.isEmpty, FibonacciHeap.extractMinimum,
    FibonacciHeap.findMinimum.
  by destruct (FibonacciHeap.live h).
Qed.

(** C4, as the claim states it, fails: on the index just created the call does
    not return, it throws. *)
Lemma popNextAvailableTask_new_does_not_return :
  ¬ ∃ result s', popNextAvailableTask new_TaskPriorities = Normal result s'.
Proof. intros (result & s' & H). vm_compute in H. discriminate. Qed.

(** C4, amended.  When the heap is empty, [extractMinimum] yields no node and
    [popNextAvailableTask] throws a TypeError on reading its [value]; the index
    is left as it was.  Whether there is something to pop is what
    [hasTasksToExecute] tells the caller, by returning [true] when there is
    not. *)
Theorem popNextAvailableTask_empty (s : TaskPriorities) :
  hasTasksToExecute s = true →
  popNextAvailableTask s = Throw (TypeError "priorityNode is undefined") s.
Proof.
  unfold hasTasksToExecute, popNextAvailableTask. intros Hempty.
  rewrite (isEmpty_extractMinimum _ Hempty). simpl.
  by rewrite with_heap_id.
Qed.

Lemma popNextAvailableTask_empty_witness :
  hasTasksToExecute new_TaskPriorities = true ∧
  popNextAvailableTask new_TaskPriorities
  = Throw (TypeError "priorityNode is undefined") new_TaskPriorities.
Proof.
  split; [reflexivity|]. apply (popNextAvailableTask_empty new_TaskPriorities).
  reflexivity.
Defined.

(** ** setPriorityBoostTags *)

Lemma Map_items_throws {V} (name : string) (m : gmap PriorityTag V) :
  Map_items name m = inl (TypeError (name +:+ ".items is not a function")).
Proof.
  unfold Map_items. case_decide as Hin; [|done].
  apply (bool_decide_pack _) in Hin. by vm_compute in Hin.
Qed.

(** Every call ends in the TypeError of [newValues.items()], with the owner's
    mapping replaced and the sums as they were. *)
Lemma setPriorityBoostTags_throws (owningId : PriorityOwner)
  (tagsWithValues : option (gmap PriorityTag Z)) (s : TaskPriorities) :
  setPriorityBoostTags owningId tagsWithValues s
  = Throw (TypeError "newValues.items is not a function")
      (with_priorityTagsByOwner
         (match tagsWithValues with
          | Some m => <[owningId := m]>
          | None => delete owningId
          end) s).
Proof.
  unfold setPriorityBoostTags. rewrite Map_items_throws.
  by destruct tagsWithValues.
Qed.

Lemma setPriorityBoostTags_keeps_sums (owningId : PriorityOwner)
  (tagsWithValues : option (gmap PriorityTag Z)) (s : TaskPriorities) :
  _summedPriorityTags (final_state (setPriorityBoostTags owningId tagsWithValues s))
  = _summedPriorityTags s.
Proof. by rewrite setPriorityBoostTags_throws. Qed.

(** C2, at Scenario C of the specification: owner viewA boosts folder:inbox by
    10 on a new index.  The call throws; the boost is recorded for the owner,
    and no weight is recorded for the tag, where the claim has 10. *)
Theorem setPriorityBoostTags_first_boost_not_summed :
  let c := setPriorityBoostTags "viewA" (Some {["folder:inbox" := 10]})
             new_TaskPriorities in
  returned c = None ∧
  _priorityTagsByOwner (final_state c) !! "viewA" = Some {["folder:inbox" := 10]} ∧
  _summedPriorityTags (final_state c) !! "folder:inbox" = None ∧
  effective_priority (final_state c)
    (TaskMarker "m" "store_flags" ["folder:inbox"] (Some 0)) = 0.
Proof.
  cbv zeta. rewrite setPriorityBoostTags_throws. simpl.
  split; [done|]. split; [by rewrite lookup_insert_eq|]. done.
Qed.

(** What [applyDelta] does to the sums: the tag's sum moves by [delta], its
    row goes when the sum is 0, and the other rows stay. *)
Lemma applyDelta_sums (tagToNodes : gmap PriorityTag (list NodeRef))
  (priorityTag : PriorityTag) (delta : Z) (summed : gmap PriorityTag Z)
  (per : gmap NodeRef Z) (tag : PriorityTag) :
  default 0 ((applyDelta tagToNodes priorityTag delta (summed, per)).1 !! tag)
  = default 0 (summed !! tag) + (if decide (tag = priorityTag) then delta else 0).
Proof.
  unfold applyDelta. simpl.
  destruct (decide (tag = priorityTag)) as [->|Hne]; case_decide as Hzero.
  - rewrite lookup_delete_eq. simpl. lia.
  - by rewrite lookup_insert_eq.
  - rewrite lookup_delete_ne by done. lia.
  - rewrite lookup_insert_ne by done. lia.
Qed.

Lemma applyDelta_no_zero_row (tagToNodes : gmap PriorityTag (list NodeRef))
  (priorityTag : PriorityTag) (delta : Z) (summed : gmap PriorityTag Z)
  (per : gmap NodeRef Z) :
  (∀ tag, summed !! tag ≠ Some 0) →
  ∀ tag, (applyDelta tagToNodes priorityTag delta (summed, per)).1 !! tag ≠ Some 0.
Proof.
  intros Hnz tag. unfold applyDelta. simpl.
  destruct (decide (tag = priorityTag)) as [->|Hne]; case_decide.
  - by rewrite lookup_delete_eq.
  - rewrite lookup_insert_eq. congruence.
  - by rewrite lookup_delete_ne.
  - by rewrite lookup_insert_ne.
Qed.

#[local] Arguments applyDelta : simpl never.

(** Had the two loops of phase 1 run over the entries of the maps, they would
    have moved every sum by the difference between the owner's new and old
    boost, which keeps the accounting. *)
Lemma accumulateNewValues_sums (existingValues : gmap PriorityTag Z)
  (tagToNodes : gmap PriorityTag (list NodeRef)) (items : list (PriorityTag * Z)) :
  NoDup items.*1 →
  ∀ acc tag,
    default 0 ((accumulateNewValues existingValues tagToNodes items acc).1 !! tag)
    = default 0 (acc.1 !! tag)
      + from_option (λ v, v - default 0 (existingValues !! tag)) 0
          ((list_to_map items : gmap PriorityTag Z) !! tag).
Proof.
  unfold accumulateNewValues.
  induction items as [|[k v] items IH]; intros Hnodup [summed per] tag; simpl.
  - rewrite lookup_empty. simpl. lia.
  - apply NoDup_cons in Hnodup as [Hk Hnodup].
    rewrite (IH Hnodup), applyDelta_sums.
    destruct (decide (tag = k)) as [->|Hne].
    + rewrite lookup_insert_eq.
      rewrite (proj1 (not_elem_of_list_to_map items k) Hk). simpl. lia.
    + rewrite lookup_insert_ne by done. lia.
Qed.

Lemma accumulateDeletions_sums (newValues : gmap PriorityTag Z)
  (tagToNodes : gmap PriorityTag (list NodeRef)) (items : list (PriorityTag * Z)) :
  NoDup items.*1 →
  ∀ acc tag,
    default 0 ((accumulateDeletions newValues tagToNodes items acc).1 !! tag)
    = default 0 (acc.1 !! tag)
      + from_option (λ v, if decide (is_Some (newValues !! tag)) then 0 else - v) 0
          ((list_to_map items : gmap PriorityTag Z) !! tag).
Proof.
  unfold accumulateDeletions.
  induction items as [|[k v] items IH]; intros Hnodup [summed per] tag; simpl.
  - rewrite lookup_empty. simpl. lia.
  - apply NoDup_cons in Hnodup as [Hk Hnodup]. rewrite (IH Hnodup).
    destruct (decide (tag = k)) as [->|Hne].
    + rewrite lookup_insert_eq.
      rewrite (proj1 (not_elem_of_list_to_map items k) Hk). simpl.
      case_decide; [simpl; lia|]. rewrite applyDelta_sums.
      rewrite decide_True by done. lia.
    + rewrite lookup_insert_ne by done.
      case_decide; [done|]. rewrite applyDelta_sums.
      rewrite decide_False by done. lia.
Qed.

Lemma accumulate_no_zero_row (existingValues newValues : gmap PriorityTag Z)
  (tagToNodes : gmap PriorityTag (list NodeRef)) (items : list (PriorityTag * Z)) :
  ∀ acc, (∀ tag, acc.1 !! tag ≠ Some 0) →
    (∀ tag, (accumulateNewValues existingValues tagToNodes items acc).1 !! tag
            ≠ Some 0) ∧
    (∀ tag, (accumulateDeletions newValues tagToNodes items acc).1 !! tag
            ≠ Some 0).
Proof.
  unfold accumulateNewValues, accumulateDeletions.
  induction items as [|[k v] items IH]; intros [summed per] Hnz; simpl; [done|].
  split.
  - apply IH. intros tag. by apply applyDelta_no_zero_row.
  - case_decide; [by apply IH|].
    apply IH. intros tag. by apply applyDelta_no_zero_row.
Qed.

Lemma asserted_insert (byOwner : gmap PriorityOwner (gmap PriorityTag Z))
  (owner : PriorityOwner) (tags : gmap PriorityTag Z) (tag : PriorityTag) :
  byOwner !! owner = None →
  asserted (<[owner := tags]> byOwner) tag
  = default 0 (tags !! tag) + asserted byOwner tag.
Proof.
  intros Hnone. unfold asserted.
  rewrite map_fold_insert_L; [done| |done]. intros. lia.
Qed.

Lemma asserted_delete (byOwner : gmap PriorityOwner (gmap PriorityTag Z))
  (owner : PriorityOwner) (tag : PriorityTag) :
  asserted (delete owner byOwner) tag
  = asserted byOwner tag - default 0 (default ∅ (byOwner !! owner) !! tag).
Proof.
  destruct (byOwner !! owner) as [tags|] eqn:Hlookup; simpl.
  - rewrite <- (insert_delete_id byOwner owner tags Hlookup) at 2.
    rewrite asserted_insert by apply lookup_delete_eq. lia.
  - rewrite delete_id by done. rewrite lookup_empty. simpl. lia.
Qed.

Lemma phase1_over_entries_accounted (owningId : PriorityOwner)
  (tagsWithValues : option (gmap PriorityTag Z))
  (byOwner : gmap PriorityOwner (gmap PriorityTag Z))
  (summed : gmap PriorityTag Z) (tagToNodes : gmap PriorityTag (list NodeRef))
  (per : gmap NodeRef Z) :
  let existingValues := default ∅ (byOwner !! owningId) in
  let newValues := default ∅ tagsWithValues in
  let acc1 := accumulateNewValues existingValues tagToNodes
                (map_to_list newValues) (summed, per) in
  let acc2 := accumulateDeletions newValues tagToNodes
                (map_to_list existingValues) acc1 in
  accounted byOwner summed →
  accounted (match tagsWithValues with
             | Some m => <[owningId := m]> byOwner
             | None => delete owningId byOwner
             end) acc2.1.
Proof.
  intros existingValues newValues acc1 acc2 [Hsums Hnz]. split.
  - intros tag. subst acc2 acc1.
    rewrite accumulateDeletions_sums by apply NoDup_fst_map_to_list.
    rewrite accumulateNewValues_sums by apply NoDup_fst_map_to_list.
    rewrite !list_to_map_to_list. simpl. rewrite Hsums.
    assert (asserted (delete owningId byOwner) tag
            = asserted byOwner tag - default 0 (existingValues !! tag)) as Hdel
      by apply asserted_delete.
    destruct tagsWithValues as [m|]; simpl in *.
    + rewrite <- insert_delete_eq, asserted_insert by apply lookup_delete_eq.
      rewrite Hdel. subst newValues. simpl.
      destruct (m !! tag) as [v|] eqn:Hm; simpl;
        destruct (existingValues !! tag) as [v'|] eqn:He; simpl;
        try case_decide; try lia.
      all: by destruct (is_Some_None (A:=Z)).
    + rewrite Hdel. subst newValues. rewrite lookup_empty. simpl.
      destruct (existingValues !! tag) as [v'|] eqn:He; simpl; lia.
  - subst acc2.
    apply (accumulate_no_zero_row existingValues newValues tagToNodes
             (map_to_list existingValues) acc1).
    subst acc1.
    by apply (accumulate_no_zero_row existingValues newValues tagToNodes
                (map_to_list newValues) (summed, per)).
Qed.

(** ** The key of a prioritized task or marker *)

Lemma foldl_weights (f : PriorityTag → Z) (tags : list PriorityTag) (a : Z) :
  foldl (λ priority priorityTag, priority + f priorityTag) a tags
  = a + sumZ (f <$> tags).
Proof.
  unfold sumZ. revert a.
  induction tags as [|tag tags IH]; intros a; simpl; [lia|].
  rewrite IH. symmetry. apply Z.add_assoc.
Qed.

Lemma computePriorityForTags_sum (s : TaskPriorities) (tags : list PriorityTag) :
  _computePriorityForTags s tags = sumZ (tag_weight s <$> tags).
Proof.
  unfold _computePriorityForTags.
  by rewrite (foldl_weights (tag_weight s)).
Qed.

Lemma nodeKey_effective_priority (s : TaskPriorities) (t : TaskThing) :
  nodeKey s t = - effective_priority s t.
Proof.
  unfold nodeKey, effective_priority. cbv zeta.
  by rewrite computePriorityForTags_sum.
Qed.

(** ** Re-weighting a heap node *)

Lemma reprioritize_decrease (s : TaskPriorities) (node : NodeRef) (nd : HeapNode)
  (newKey : Z) :
  node_at s node = Some nd → newKey < key nd →
  _reprioritizeHeapNode node newKey s
  = with_heap (FibonacciHeap.decreaseKey node newKey) s.
Proof.
  intros Hnode Hlt. unfold _reprioritizeHeapNode. rewrite Hnode.
  by rewrite (proj2 (Z.ltb_lt _ _) Hlt).
Qed.

Lemma reprioritize_increase (s : TaskPriorities) (node : NodeRef) (nd : HeapNode)
  (newKey : Z) :
  node_at s node = Some nd → key nd < newKey →
  _reprioritizeHeapNode node newKey s
  = with_heap (λ h, (FibonacciHeap.insert newKey (value nd)
                       (FibonacciHeap.delete node h)).2) s.
Proof.
  intros Hnode Hgt. unfold _reprioritizeHeapNode. rewrite Hnode.
  rewrite (proj2 (Z.ltb_ge _ _)) by lia.
  by rewrite (proj2 (Z.gtb_gt _ _)) by lia.
Qed.

Lemma reprioritize_same (s : TaskPriorities) (node : NodeRef) (nd : HeapNode) :
  node_at s node = Some nd → _reprioritizeHeapNode node (key nd) s = s.
Proof.
  intros Hnode. unfold _reprioritizeHeapNode. rewrite Hnode.
  rewrite Z.ltb_irrefl.
  destruct (key nd >? key nd) eqn:Hgt; [|done].
  apply Z.gtb_gt in Hgt. lia.
Qed.

Lemma not_elem_of_remove_ref (n : NodeRef) (l : list NodeRef) :
  n ∉ FibonacciHeap.remove_ref n l.
Proof.
  unfold FibonacciHeap.remove_ref. rewrite list_elem_of_filter. by intros [? _].
Qed.

Lemma elem_of_remove_ref (n m : NodeRef) (l : list NodeRef) :
  m ∈ FibonacciHeap.remove_ref n l ↔ m ≠ n ∧ m ∈ l.
Proof. unfold FibonacciHeap.remove_ref. by rewrite list_elem_of_filter. Qed.

(** C6.  Re-weighting the node [node], whose key is [key nd], to [newKey]:
    with a strictly smaller key the heap's [decreaseKey] lowers the key of the
    node where it is (same node, same value, same place in the heap, no node
    created); with a strictly larger key the node is deleted from the heap and
    its value inserted again under the new key; with the same key nothing
    changes. *)
Theorem reprioritizeHeapNode_cases (s : TaskPriorities) (node : NodeRef)
  (nd : HeapNode) (newKey : Z) :
  node_at s node = Some nd →
  let s' := _reprioritizeHeapNode node newKey s in
  let h := _prioritizedTasks s in
  let h' := _prioritizedTasks s' in
  (newKey < key nd →
     h' = FibonacciHeap.decreaseKey node newKey h ∧
     node_at s' node = Some {| key := newKey; value := value nd |} ∧
     FibonacciHeap.live h' = FibonacciHeap.live h ∧
     length (FibonacciHeap.nodes h') = length (FibonacciHeap.nodes h)) ∧
  (key nd < newKey →
     h' = (FibonacciHeap.insert newKey (value nd) (FibonacciHeap.delete node h)).2 ∧
     ¬ (node ∈ FibonacciHeap.live h') ∧
     FibonacciHeap.live h'
     = FibonacciHeap.remove_ref node (FibonacciHeap.live h)
         ++ [length (FibonacciHeap.nodes h)] ∧
     node_at s' (length (FibonacciHeap.nodes h))
     = Some {| key := newKey; value := value nd |}) ∧
  (newKey = key nd → s' = s).
Proof.
  intros Hnode s' h h'. split; [|split].
  - intros Hlt. subst s' h h'.
    rewrite (reprioritize_decrease _ _ _ _ Hnode Hlt).
    unfold node_at in *. simpl.
    rewrite list_lookup_alter_eq, Hnode, length_alter. done.
  - intros Hgt. subst s' h h'.
    rewrite (reprioritize_increase _ _ _ _ Hnode Hgt).
    unfold node_at in *. simpl. split; [done|]. split; [|split; [done|]].
    + apply lookup_lt_Some in Hnode. rewrite elem_of_app.
      intros [Hin|Hin%list_elem_of_singleton].
      * by apply not_elem_of_remove_ref in Hin.
      * lia.
    + by rewrite lookup_app_r, Nat.sub_diag by lia.
  - intros ->. subst s'. by apply reprioritize_same.
Qed.

Lemma reprioritizeHeapNode_cases_witness :
  node_at two_tasks 1%nat = Some {| key := -3; value := simple_task "b" 3 |} ∧
  FibonacciHeap.live (_prioritizedTasks (_reprioritizeHeapNode 1%nat (-7) two_tasks))
  = [0%nat; 1%nat] ∧
  FibonacciHeap.live (_prioritizedTasks (_reprioritizeHeapNode 1%nat (-1) two_tasks))
  = [0%nat; 2%nat] ∧
  _reprioritizeHeapNode 1%nat (-3) two_tasks = two_tasks.
Proof.
  pose proof (reprioritizeHeapNode_cases two_tasks 1%nat
                {| key := -3; value := simple_task "b" 3 |}) as H.
  split; [reflexivity|]. split; [|split].
  - destruct (H (-7) eq_refl) as [Hdec _].
    destruct (Hdec ltac:(simpl; lia)) as (_ & _ & Hlive & _).
    rewrite Hlive. reflexivity.
  - destruct (H (-1) eq_refl) as (_ & Hinc & _).
    destruct (Hinc ltac:(simpl; lia)) as (_ & _ & Hlive & _).
    rewrite Hlive. reflexivity.
  - destruct (H (-3) eq_refl) as (_ & _ & Hsame). by apply Hsame.
Defined.

(** ** What prioritizeTaskThing does to the heap *)

Lemma prioritizeTaskThing_heap_known (t : TaskThing) (s : TaskPriorities)
  (priorityNode : NodeRef) :
  _taskIdToHeapNode s !! thing_id t = Some priorityNode →
  _prioritizedTasks (prioritizeTaskThing t s)
  = FibonacciHeap.set_value priorityNode t
      (_prioritizedTasks (_reprioritizeHeapNode priorityNode (nodeKey s t) s)).
Proof.
  intros Hmap. unfold prioritizeTaskThing. rewrite Hmap. simpl.
  by destruct (node_at _ priorityNode).
Qed.

Lemma prioritizeTaskThing_heap_new (t : TaskThing) (s : TaskPriorities) :
  _taskIdToHeapNode s !! thing_id t = None →
  _prioritizedTasks (prioritizeTaskThing t s)
  = (FibonacciHeap.insert (nodeKey s t) t (_prioritizedTasks s)).2.
Proof. intros Hmap. unfold prioritizeTaskThing. by rewrite Hmap. Qed.

Lemma prioritizeTaskThing_sums (t : TaskThing) (s : TaskPriorities) :
  _summedPriorityTags (prioritizeTaskThing t s) = _summedPriorityTags s.
Proof.
  unfold prioritizeTaskThing.
  destruct (_taskIdToHeapNode s !! thing_id t) as [priorityNode|]; simpl; [|done].
  assert (∀ s0, _summedPriorityTags
                  (_reprioritizeHeapNode priorityNode (nodeKey s t) s0)
                = _summedPriorityTags s0) as Hre.
  { intros s0. unfold _reprioritizeHeapNode.
    destruct (node_at s0 priorityNode); [|done]. by repeat case_match. }
  destruct (node_at _ priorityNode); simpl; apply Hre.
Qed.

Lemma tracked_new : tracked new_TaskPriorities.
Proof. intros id n Hmap. simpl in Hmap. by rewrite lookup_empty in Hmap. Qed.

(** ** One node per id *)

(** C5, at [lowered]: a task prioritized with priority 5, then again with
    priority 1.  The second call deletes the node of the id
    and inserts another one, which it does not record: the id stays mapped to
    the deleted node (in which the new task is stored), while the node in the
    heap holds the superseded task; removing the id afterwards clears the map
    and leaves that node in the heap. *)
Theorem lowered_priority_detaches_node :
  _taskIdToHeapNode lowered !! "a" = Some 0%nat ∧
  FibonacciHeap.live (_prioritizedTasks lowered) = [1%nat] ∧
  node_at lowered 0%nat = Some {| key := -5; value := simple_task "a" 1 |} ∧
  node_at lowered 1%nat = Some {| key := -1; value := simple_task "a" 5 |} ∧
  _taskIdToHeapNode (removeTaskThing "a" lowered) !! "a" = None ∧
  entries (removeTaskThing "a" lowered) = [simple_task "a" 5].
Proof. by vm_compute. Qed.

Lemma lowered_not_tracked : ¬ tracked lowered.
Proof.
  intros Htracked.
  destruct (Htracked "a" 0%nat ltac:(by vm_compute)) as [Hlive _].
  vm_compute in Hlive. by apply list_elem_of_singleton in Hlive.
Qed.

(** ** Pop order *)

(** C1, at [superseded]: task a with priority 5, task b with priority 3, then
    a again with priority 1.  The first pop returns b, of priority 3, while the
    heap holds the superseded task a of priority 5; the second pop returns
    that superseded task, not the one of priority 1 that replaced it: the
    priorities come out as 3, then 5. *)
Theorem superseded_task_pops_after_lower_one :
  returned (popNextAvailableTask superseded) = Some (simple_task "b" 3) ∧
  entries superseded = [simple_task "b" 3; simple_task "a" 5] ∧
  drain 3 superseded = [simple_task "b" 3; simple_task "a" 5] ∧
  effective_priority superseded <$> drain 3 superseded = [3; 5].
Proof. by vm_compute. Qed.

(** Scenario A: priorities 5, 1, 5 submitted in that order. *)
Lemma scenario_A :
  drain 4 (prioritizeTaskThing (simple_task "task3" 5)
             (prioritizeTaskThing (simple_task "task2" 1)
                (prioritizeTaskThing (simple_task "task1" 5) new_TaskPriorities)))
  = [simple_task "task1" 5; simple_task "task3" 5; simple_task "task2" 1].
Proof. by vm_compute. Qed.

(** The heap's choice: the node it picks splits the nodes in heap order into
    those before it, all of strictly larger key, and those after it, none of
    smaller key. *)
Lemma least_spec (ns : list HeapNode) (l : list NodeRef) :
  ∀ best pre mid,
    (∀ m, m ∈ pre → FibonacciHeap.node_key ns best < FibonacciHeap.node_key ns m) →
    (∀ m, m ∈ mid → FibonacciHeap.node_key ns best ≤ FibonacciHeap.node_key ns m) →
    ∃ l1 l2,
      pre ++ best :: mid ++ l = l1 ++ FibonacciHeap.least ns best l :: l2 ∧
      (∀ m, m ∈ l1 → FibonacciHeap.node_key ns (FibonacciHeap.least ns best l)
                      < FibonacciHeap.node_key ns m) ∧
      (∀ m, m ∈ l2 → FibonacciHeap.node_key ns (FibonacciHeap.least ns best l)
                      ≤ FibonacciHeap.node_key ns m).
Proof.
  induction l as [|n l IH]; intros best pre mid Hpre Hmid; simpl.
  - exists pre, mid. by rewrite app_nil_r.
  - destruct (FibonacciHeap.node_key ns n <? FibonacciHeap.node_key ns best)
      eqn:Hcmp.
    + apply Z.ltb_lt in Hcmp.
      destruct (IH n (pre ++ best :: mid) []) as (l1 & l2 & Heq & H1 & H2).
      * intros m [Hm|Hm]%elem_of_app; [specialize (Hpre m Hm); lia|].
        apply elem_of_cons in Hm as [->|Hm]; [lia|].
        specialize (Hmid m Hm). lia.
      * intros m Hm. by apply not_elem_of_nil in Hm.
      * exists l1, l2. split; [|done].
        rewrite <- Heq. simpl. by rewrite <- !app_assoc.
    + apply Z.ltb_ge in Hcmp.
      destruct (IH best pre (mid ++ [n])) as (l1 & l2 & Heq & H1 & H2).
      * done.
      * intros m [Hm|Hm]%elem_of_app; [by apply Hmid|].
        apply list_elem_of_singleton in Hm as ->. done.
      * exists l1, l2. split; [|done].
        rewrite <- Heq. by rewrite <- !app_assoc.
Qed.

Lemma findMinimum_spec (h : FibonacciHeap.t) (n : NodeRef) :
  FibonacciHeap.findMinimum h = Some n →
  ∃ l1 l2,
    FibonacciHeap.live h = l1 ++ n :: l2 ∧
    (∀ m, m ∈ l1 → FibonacciHeap.node_key (FibonacciHeap.nodes h) n
                    < FibonacciHeap.node_key (FibonacciHeap.nodes h) m) ∧
    (∀ m, m ∈ l2 → FibonacciHeap.node_key (FibonacciHeap.nodes h) n
                    ≤ FibonacciHeap.node_key (FibonacciHeap.nodes h) m).
Proof.
  unfold FibonacciHeap.findMinimum.
  destruct (FibonacciHeap.live h) as [|n0 l]; [done|].
  intros [= <-].
  destruct (least_spec (FibonacciHeap.nodes h) l n0 [] [])
    as (l1 & l2 & Heq & H1 & H2).
  - intros m Hm. by apply not_elem_of_nil in Hm.
  - intros m Hm. by apply not_elem_of_nil in Hm.
  - exists l1, l2. by split.
Qed.

(** When the key of every node in the heap is the negated effective priority
    of the task or marker it holds, a pop on a non-empty index returns the
    entry of highest effective priority, the oldest node among equals. *)
Lemma popNextAvailableTask_best (s : TaskPriorities) :
  keyed s → hasTasksToExecute s = false →
  ∃ t s' before after,
    popNextAvailableTask s = Normal t s' ∧
    entries s = before ++ t :: after ∧
    (∀ u, u ∈ before → effective_priority s u < effective_priority s t) ∧
    (∀ u, u ∈ after → effective_priority s u ≤ effective_priority s t).
Proof.
  intros Hkeyed Hnonempty.
  destruct (FibonacciHeap.findMinimum (_prioritizedTasks s)) as [n|] eqn:Hmin.
  2:{ unfold hasTasksToExecute, FibonacciHeap.isEmpty in Hnonempty.
      unfold FibonacciHeap.findMinimum in Hmin.
      by destruct (FibonacciHeap.live (_prioritizedTasks s)). }
  destruct (findMinimum_spec _ _ Hmin) as (l1 & l2 & Hlive & H1 & H2).
  assert (n ∈ FibonacciHeap.live (_prioritizedTasks s)) as Hn.
  { rewrite Hlive. apply elem_of_app. right. apply list_elem_of_here. }
  destruct (Hkeyed n Hn) as (nd & Hnode & Hkey).
  assert (∀ m u, m ∈ FibonacciHeap.live (_prioritizedTasks s) →
                 value <$> node_at s m = Some u →
                 FibonacciHeap.node_key (FibonacciHeap.nodes (_prioritizedTasks s)) m
                 = - effective_priority s u) as Hkeys.
  { intros m u Hm Hu. destruct (Hkeyed m Hm) as (ndm & Hndm & Hkm).
    rewrite Hndm in Hu. injection Hu as <-.
    unfold FibonacciHeap.node_key. unfold node_at in Hndm. by rewrite Hndm. }
  pose proof (Hkeys n (value nd) Hn ltac:(by rewrite Hnode)) as Hkn.
  eexists (value nd), _, (omap (λ m, value <$> node_at s m) l1),
    (omap (λ m, value <$> node_at s m) l2).
  split; [|split; [|split]].
  - unfold popNextAvailableTask, FibonacciHeap.extractMinimum. rewrite Hmin.
    unfold node_at in *. simpl. rewrite Hnode. simpl. done.
  - unfold entries. rewrite Hlive, omap_app. simpl. by rewrite Hnode.
  - intros u (m & Hm & Hu)%list_elem_of_omap.
    assert (m ∈ FibonacciHeap.live (_prioritizedTasks s)) as Hml.
    { rewrite Hlive. apply elem_of_app. by left. }
    specialize (H1 m Hm). rewrite (Hkeys m u Hml Hu), Hkn in H1. lia.
  - intros u (m & Hm & Hu)%list_elem_of_omap.
    assert (m ∈ FibonacciHeap.live (_prioritizedTasks s)) as Hml.
    { rewrite Hlive. apply elem_of_app. right. by apply list_elem_of_further. }
    specialize (H2 m Hm). rewrite (Hkeys m u Hml Hu), Hkn in H2. lia.
Qed.

Lemma effective_priority_sums (s s' : TaskPriorities) (t : TaskThing) :
  _summedPriorityTags s' = _summedPriorityTags s →
  effective_priority s' t = effective_priority s t.
Proof. intros Hsums. unfold effective_priority, tag_weight. by rewrite Hsums. Qed.

Lemma keyed_new : keyed new_TaskPriorities.
Proof. intros n Hn. simpl in Hn. by apply not_elem_of_nil in Hn. Qed.

(** Prioritizing a task or marker whose id the index does not know keeps the
    keys in step with the effective priorities. *)
Lemma prioritizeTaskThing_new_keyed (t : TaskThing) (s : TaskPriorities) :
  keyed s → _taskIdToHeapNode s !! thing_id t = None →
  keyed (prioritizeTaskThing t s).
Proof.
  intros Hkeyed Hmap n. unfold node_at.
  rewrite (prioritizeTaskThing_heap_new _ _ Hmap). simpl.
  intros [Hn|Hn%list_elem_of_singleton]%elem_of_app.
  - destruct (Hkeyed n Hn) as (nd & Hnode & Hkey). exists nd.
    unfold node_at in Hnode. rewrite (lookup_app_l_Some _ _ _ _ Hnode).
    split; [done|].
    by rewrite (effective_priority_sums s) by apply prioritizeTaskThing_sums.
  - subst n. exists {| key := nodeKey s t; value := t |}.
    rewrite lookup_app_r, Nat.sub_diag by lia. split; [done|]. simpl.
    rewrite (effective_priority_sums s) by apply prioritizeTaskThing_sums.
    apply nodeKey_effective_priority.
Qed.

Lemma popNextAvailableTask_keyed (s s' : TaskPriorities) (t : TaskThing) :
  keyed s → popNextAvailableTask s = Normal t s' → keyed s'.
Proof.
  intros Hkeyed. unfold popNextAvailableTask, FibonacciHeap.extractMinimum.
  destruct (FibonacciHeap.findMinimum (_prioritizedTasks s)) as [n|]; [|done].
  unfold node_at at 1. simpl.
  destruct (FibonacciHeap.nodes (_prioritizedTasks s) !! n) as [nd|] eqn:Hnode;
    [|done].
  simpl. intros [= <- <-] m. unfold node_at. simpl.
  intros [_ Hm]%elem_of_remove_ref.
  destruct (Hkeyed m Hm) as (ndm & Hndm & Hkey). by exists ndm.
Qed.

Lemma popNextAvailableTask_inv (s s' : TaskPriorities) (t : TaskThing) :
  popNextAvailableTask s = Normal t s' →
  ∃ n nd,
    FibonacciHeap.findMinimum (_prioritizedTasks s) = Some n ∧
    node_at s n = Some nd ∧ t = value nd ∧
    _prioritizedTasks s'
    = {| FibonacciHeap.nodes := FibonacciHeap.nodes (_prioritizedTasks s);
         FibonacciHeap.live :=
           FibonacciHeap.remove_ref n (FibonacciHeap.live (_prioritizedTasks s)) |} ∧
    _taskIdToHeapNode s' = delete (thing_id t) (_taskIdToHeapNode s) ∧
    _summedPriorityTags s' = _summedPriorityTags s.
Proof.
  unfold popNextAvailableTask, FibonacciHeap.extractMinimum.
  destruct (FibonacciHeap.findMinimum (_prioritizedTasks s)) as [n|]; [|done].
  unfold node_at. simpl.
  destruct (FibonacciHeap.nodes (_prioritizedTasks s) !! n) as [nd|] eqn:Hnode;
    [|done].
  simpl. intros [= <- <-]. by exists n, nd.
Qed.

Lemma popNextAvailableTask_entries (s s' : TaskPriorities) (t : TaskThing) :
  popNextAvailableTask s = Normal t s' →
  t ∈ entries s ∧ ∀ u, u ∈ entries s' → u ∈ entries s.
Proof.
  intros (n & nd & Hmin & Hnode & -> & Hheap & _ & _)%popNextAvailableTask_inv.
  unfold entries, node_at. rewrite Hheap. simpl. split.
  - apply list_elem_of_omap. exists n. split.
    + destruct (findMinimum_spec _ _ Hmin) as (l1 & l2 & -> & _).
      apply elem_of_app. right. apply list_elem_of_here.
    + unfold node_at in Hnode. by rewrite Hnode.
  - intros u (m & [_ Hm]%elem_of_remove_ref & Hu)%list_elem_of_omap.
    apply list_elem_of_omap. by exists m.
Qed.

Lemma StronglySorted_weaken {A} (R R' : A → A → Prop) (l : list A) :
  (∀ x y, R x y → R' x y) → StronglySorted R l → StronglySorted R' l.
Proof.
  intros Himpl Hsorted. induction Hsorted as [|x l _ IH Hall]; constructor.
  - exact IH.
  - eapply Forall_impl; [exact Hall|]. intros y. apply Himpl.
Qed.

Lemma drain_entries (fuel : nat) :
  ∀ s u, u ∈ drain fuel s → u ∈ entries s.
Proof.
  induction fuel as [|fuel IH]; intros s u; simpl.
  - intros Hu. by apply not_elem_of_nil in Hu.
  - destruct (popNextAvailableTask s) as [t s'|e s'] eqn:Hpop.
    + destruct (popNextAvailableTask_entries _ _ _ Hpop) as [Ht Hsub].
      intros [->|Hu]%elem_of_cons; [done|]. by apply Hsub, IH.
    + intros Hu. by apply not_elem_of_nil in Hu.
Qed.

(** From an index whose keys match its entries, successive pops return tasks
    and markers in descending order of effective priority. *)
Lemma drain_descending (fuel : nat) :
  ∀ s, keyed s →
       StronglySorted (λ t u, effective_priority s u ≤ effective_priority s t)
                      (drain fuel s).
Proof.
  induction fuel as [|fuel IH]; intros s Hkeyed; simpl; [constructor|].
  destruct (popNextAvailableTask s) as [t s'|e s'] eqn:Hpop; [|constructor].
  assert (hasTasksToExecute s = false) as Hnonempty.
  { destruct (hasTasksToExecute s) eqn:Hempty; [|done].
    unfold hasTasksToExecute in Hempty. unfold popNextAvailableTask in Hpop.
    by rewrite (isEmpty_extractMinimum _ Hempty) in Hpop. }
  destruct (popNextAvailableTask_best s Hkeyed Hnonempty)
    as (t' & s'' & before & after & Hpop' & Hentries & Hbefore & Hafter).
  rewrite Hpop in Hpop'. injection Hpop' as <- <-.
  destruct (popNextAvailableTask_inv _ _ _ Hpop)
    as (_ & _ & _ & _ & _ & _ & _ & Hsums).
  apply StronglySorted_cons. split.
  - apply Forall_forall. intros u Hu%drain_entries.
    apply (proj2 (popNextAvailableTask_entries _ _ _ Hpop)) in Hu.
    rewrite Hentries in Hu.
    apply elem_of_app in Hu as [Hu|Hu]; [specialize (Hbefore u Hu); lia|].
    apply elem_of_cons in Hu as [->|Hu]; [lia|]. by apply Hafter.
  - specialize (IH s' (popNextAvailableTask_keyed _ _ _ Hkeyed Hpop)).
    eapply StronglySorted_weaken; [|exact IH].
    intros u v. simpl. by rewrite !(effective_priority_sums s s').
Qed.

(** ** The map from ids to nodes

    Apart from the re-insertion of [_reprioritizeHeapNode], the operations keep
    every id mapped to the heap node that holds its task or marker. *)

Lemma prioritizeTaskThing_new_tracked (t : TaskThing) (s : TaskPriorities) :
  tracked s → _taskIdToHeapNode s !! thing_id t = None →
  tracked (prioritizeTaskThing t s).
Proof.
  intros Htracked Hmap id n. unfold node_at.
  rewrite (prioritizeTaskThing_heap_new _ _ Hmap).
  unfold prioritizeTaskThing. rewrite Hmap. simpl.
  destruct (decide (id = thing_id t)) as [->|Hne].
  - rewrite lookup_insert_eq. intros [= <-]. split.
    + apply elem_of_app. right. apply list_elem_of_here.
    + exists {| key := nodeKey s t; value := t |}.
      by rewrite lookup_app_r, Nat.sub_diag by lia.
  - rewrite lookup_insert_ne by done. intros Hid.
    destruct (Htracked _ _ Hid) as (Hlive & nd & Hnode & Hnd). split.
    + apply elem_of_app. by left.
    + exists nd. unfold node_at in Hnode.
      by rewrite (lookup_app_l_Some _ _ _ _ Hnode).
Qed.

Lemma prioritizeTaskThing_map_known (t : TaskThing) (s : TaskPriorities)
  (priorityNode : NodeRef) :
  _taskIdToHeapNode s !! thing_id t = Some priorityNode →
  _taskIdToHeapNode (prioritizeTaskThing t s) = _taskIdToHeapNode s.
Proof.
  intros Hmap. unfold prioritizeTaskThing. rewrite Hmap. simpl.
  assert (∀ s0, _taskIdToHeapNode
                  (_reprioritizeHeapNode priorityNode (nodeKey s t) s0)
                = _taskIdToHeapNode s0) as Hre.
  { intros s0. unfold _reprioritizeHeapNode.
    destruct (node_at s0 priorityNode); [|done]. by repeat case_match. }
  destruct (node_at _ priorityNode); simpl; apply Hre.
Qed.

Lemma decreaseKey_same_key (h : FibonacciHeap.t) (n : NodeRef) (nd : HeapNode) :
  FibonacciHeap.nodes h !! n = Some nd →
  FibonacciHeap.decreaseKey n (key nd) h = h.
Proof.
  destruct h as [ns lv]. unfold FibonacciHeap.decreaseKey. simpl.
  intros Hn. f_equal. apply list_eq. intros i.
  destruct (decide (i = n)) as [->|Hi].
  - rewrite list_lookup_alter_eq, Hn. by destruct nd.
  - by rewrite list_lookup_alter_ne.
Qed.

(** ** The key of the node that holds the task *)

(** Unless the call gives an id the index knows a larger key than its node
    has, the id is afterwards mapped to a node of the heap that holds the task
    or marker passed, under the key computed for it. *)
Lemma prioritizeTaskThing_key_unless_raised (t : TaskThing) (s : TaskPriorities) :
  (∀ priorityNode,
     _taskIdToHeapNode s !! thing_id t = Some priorityNode →
     priorityNode ∈ FibonacciHeap.live (_prioritizedTasks s) ∧
     ∃ nd, node_at s priorityNode = Some nd ∧ nodeKey s t ≤ key nd) →
  ∃ n,
    _taskIdToHeapNode (prioritizeTaskThing t s) !! thing_id t = Some n ∧
    n ∈ FibonacciHeap.live (_prioritizedTasks (prioritizeTaskThing t s)) ∧
    node_at (prioritizeTaskThing t s) n
    = Some {| key := nodeKey s t; value := t |}.
Proof.
  intros Hknown. unfold node_at.
  destruct (_taskIdToHeapNode s !! thing_id t) as [pn|] eqn:Hmap.
  - destruct (Hknown pn eq_refl) as (Hlive & nd & Hnode & Hle).
    rewrite (prioritizeTaskThing_heap_known _ _ _ Hmap),
      (prioritizeTaskThing_map_known _ _ _ Hmap).
    assert (_prioritizedTasks (_reprioritizeHeapNode pn (nodeKey s t) s)
            = FibonacciHeap.decreaseKey pn (nodeKey s t) (_prioritizedTasks s))
      as ->.
    { destruct (decide (nodeKey s t = key nd)) as [Heq|Hne].
      - by rewrite Heq, (reprioritize_same _ _ _ Hnode), decreaseKey_same_key.
      - by rewrite (reprioritize_decrease _ _ _ _ Hnode) by lia. }
    exists pn. simpl. split; [done|]. split; [done|].
    unfold node_at in Hnode. by rewrite !list_lookup_alter_eq, Hnode.
  - rewrite (prioritizeTaskThing_heap_new _ _ Hmap).
    exists (length (FibonacciHeap.nodes (_prioritizedTasks s))). split; [|split].
    + unfold prioritizeTaskThing. rewrite Hmap. simpl. by rewrite lookup_insert_eq.
    + simpl. rewrite elem_of_app, list_elem_of_singleton. by right.
    + simpl. by rewrite lookup_app_r, Nat.sub_diag by lia.
Qed.

(** C3, where the code departs from it.  When the key computed for a task or
    marker is larger than the key of the node its id is mapped to,
    [_reprioritizeHeapNode] deletes that node and inserts another one, whose
    reference it drops; [prioritizeTaskThing] then stores the task or marker
    passed in the deleted node.  So the node that holds what was passed, the
    one its id is mapped to, keeps the old key and is not in the heap, while
    the node that has the key computed holds the superseded task or marker;
    every other node of the heap is one it held before, unchanged. *)
Theorem prioritizeTaskThing_raised_key_keeps_old_key (t : TaskThing)
  (s : TaskPriorities) (priorityNode : NodeRef) (nd : HeapNode) :
  _taskIdToHeapNode s !! thing_id t = Some priorityNode →
  node_at s priorityNode = Some nd →
  key nd < nodeKey s t →
  let s' := prioritizeTaskThing t s in
  let inserted := length (FibonacciHeap.nodes (_prioritizedTasks s)) in
  _taskIdToHeapNode s' !! thing_id t = Some priorityNode ∧
  node_at s' priorityNode = Some {| key := key nd; value := t |} ∧
  ¬ (priorityNode ∈ FibonacciHeap.live (_prioritizedTasks s')) ∧
  inserted ∈ FibonacciHeap.live (_prioritizedTasks s') ∧
  node_at s' inserted = Some {| key := nodeKey s t; value := value nd |} ∧
  (∀ n held, node_at s' n = Some held →
             n ∈ FibonacciHeap.live (_prioritizedTasks s') →
             n = inserted ∨
             (n ≠ priorityNode ∧ node_at s n = Some held ∧
              n ∈ FibonacciHeap.live (_prioritizedTasks s))).
Proof.
  intros Hmap Hnode Hgt. cbv zeta. unfold node_at.
  rewrite (prioritizeTaskThing_heap_known _ _ _ Hmap),
    (prioritizeTaskThing_map_known _ _ _ Hmap).
  rewrite (reprioritize_increase _ _ _ _ Hnode Hgt). simpl.
  unfold node_at in Hnode. pose proof (lookup_lt_Some _ _ _ Hnode) as Hpn.
  split; [done|]. split; [|split; [|split; [|split]]].
  - by rewrite list_lookup_alter_eq, lookup_app_l, Hnode by done.
  - rewrite elem_of_app, list_elem_of_singleton.
    intros [Hin|Hin]; [by apply not_elem_of_remove_ref in Hin|lia].
  - rewrite elem_of_app, list_elem_of_singleton. by right.
  - rewrite list_lookup_alter_ne by lia.
    by rewrite lookup_app_r, Nat.sub_diag by lia.
  - intros n held Hheld Hlive.
    destruct (decide (n = length (FibonacciHeap.nodes (_prioritizedTasks s))))
      as [Hn|Hn]; [by left|right].
    apply elem_of_app in Hlive as [[Hne Hlive]%elem_of_remove_ref|Hlive];
      [|by apply list_elem_of_singleton in Hlive].
    split; [done|]. split; [|done].
    rewrite list_lookup_alter_ne in Hheld by done.
    destruct (decide (n < length (FibonacciHeap.nodes (_prioritizedTasks s)))%nat)
      as [Hlt|Hge].
    + by rewrite lookup_app_l in Hheld.
    + rewrite lookup_app_r in Hheld by lia.
      destruct (n - length (FibonacciHeap.nodes (_prioritizedTasks s)))%nat
        as [|k] eqn:Hk; [lia|done].
Qed.

(** The failing input of C3: task a is prioritized with priority 5, then a
    task of the same id with priority 1.  The key computed for it is -1; it
    ends up in node 0, whose key is -5 and which has left the heap, while
    node 1, the only node of the heap, has the key -1 and holds the first
    task. *)
Lemma prioritizeTaskThing_raised_key_keeps_old_key_witness :
  nodeKey (prioritizeTaskThing (simple_task "a" 5) new_TaskPriorities)
          (simple_task "a" 1) = -1 ∧
  _taskIdToHeapNode lowered !! "a" = Some 0%nat ∧
  node_at lowered 0%nat = Some {| key := -5; value := simple_task "a" 1 |} ∧
  ¬ (0%nat ∈ FibonacciHeap.live (_prioritizedTasks lowered)) ∧
  1%nat ∈ FibonacciHeap.live (_prioritizedTasks lowered) ∧
  node_at lowered 1%nat = Some {| key := -1; value := simple_task "a" 5 |}.
Proof.
  split; [reflexivity|].
  destruct (prioritizeTaskThing_raised_key_keeps_old_key
              (simple_task "a" 1)
              (prioritizeTaskThing (simple_task "a" 5) new_TaskPriorities)
              0%nat {| key := -5; value := simple_task "a" 5 |})
    as (Hmap & Hheld & Hout & Hin & Hnew & _).
  - reflexivity.
  - reflexivity.
  - reflexivity.
  - split; [exact Hmap|]. split; [exact Hheld|]. split; [exact Hout|].
    split; [exact Hin|exact Hnew].
Defined.

Lemma prioritizeTaskThing_not_lower_tracked (t : TaskThing) (s : TaskPriorities)
  (priorityNode : NodeRef) (nd : HeapNode) :
  tracked s → _taskIdToHeapNode s !! thing_id t = Some priorityNode →
  node_at s priorityNode = Some nd → nodeKey s t ≤ key nd →
  tracked (prioritizeTaskThing t s).
Proof.
  intros Htracked Hmap Hnode Hle id n. unfold node_at.
  rewrite (prioritizeTaskThing_heap_known _ _ _ Hmap),
    (prioritizeTaskThing_map_known _ _ _ Hmap).
  intros Hid. destruct (Htracked _ _ Hid) as (Hlive & ndn & Hndn & Hidn).
  assert (_prioritizedTasks (_reprioritizeHeapNode priorityNode (nodeKey s t) s)
          = FibonacciHeap.decreaseKey priorityNode (nodeKey s t) (_prioritizedTasks s))
    as ->.
  { destruct (decide (nodeKey s t = key nd)) as [Heq|Hne].
    - by rewrite Heq, (reprioritize_same _ _ _ Hnode), decreaseKey_same_key.
    - by rewrite (reprioritize_decrease _ _ _ _ Hnode) by lia. }
  simpl. split; [done|]. unfold node_at in Hndn.
  destruct (decide (n = priorityNode)) as [->|Hn].
  - rewrite !list_lookup_alter_eq, Hndn. simpl. eexists. split; [done|]. simpl.
    destruct (Htracked _ _ Hmap) as (_ & nd' & Hnd' & Hid').
    unfold node_at in Hnd'. congruence.
  - exists ndn. by rewrite !list_lookup_alter_ne.
Qed.

Lemma prioritizeTaskThing_not_lower_keyed (t : TaskThing) (s : TaskPriorities)
  (priorityNode : NodeRef) (nd : HeapNode) :
  keyed s → _taskIdToHeapNode s !! thing_id t = Some priorityNode →
  node_at s priorityNode = Some nd → nodeKey s t ≤ key nd →
  keyed (prioritizeTaskThing t s).
Proof.
  intros Hkeyed Hmap Hnode Hle n. unfold node_at.
  rewrite (prioritizeTaskThing_heap_known _ _ _ Hmap).
  assert (_prioritizedTasks (_reprioritizeHeapNode priorityNode (nodeKey s t) s)
          = FibonacciHeap.decreaseKey priorityNode (nodeKey s t) (_prioritizedTasks s))
    as ->.
  { destruct (decide (nodeKey s t = key nd)) as [Heq|Hne].
    - by rewrite Heq, (reprioritize_same _ _ _ Hnode), decreaseKey_same_key.
    - by rewrite (reprioritize_decrease _ _ _ _ Hnode) by lia. }
  simpl. intros Hlive. unfold node_at in Hnode.
  destruct (decide (n = priorityNode)) as [->|Hn].
  - rewrite !list_lookup_alter_eq, Hnode. simpl. eexists. split; [done|]. simpl.
    rewrite (effective_priority_sums s) by apply prioritizeTaskThing_sums.
    apply nodeKey_effective_priority.
  - destruct (Hkeyed n Hlive) as (ndn & Hndn & Hkey). exists ndn.
    unfold node_at in Hndn. rewrite !list_lookup_alter_ne by done.
    split; [done|].
    by rewrite (effective_priority_sums s) by apply prioritizeTaskThing_sums.
Qed.

(** A sequence of calls none of which lowers the priority of an id in the
    index keeps the map and the keys right, and the pops that follow return
    tasks and markers in descending order of effective priority. *)
Lemma prioritizeAll_no_lowering (ts : list TaskThing) :
  ∀ s, tracked s → keyed s → no_lowering ts s →
       tracked (prioritizeAll ts s) ∧ keyed (prioritizeAll ts s) ∧
       ∀ fuel,
         StronglySorted
           (λ t u, effective_priority (prioritizeAll ts s) u
                   ≤ effective_priority (prioritizeAll ts s) t)
           (drain fuel (prioritizeAll ts s)).
Proof.
  induction ts as [|t ts IH]; intros s Htracked Hkeyed Hno; simpl.
  - split; [done|]. split; [done|]. intros fuel. by apply drain_descending.
  - destruct Hno as [Hraise Hno]. apply IH; [| |done].
    + destruct (_taskIdToHeapNode s !! thing_id t) as [n|] eqn:Hmap.
      * destruct (Htracked _ _ Hmap) as (_ & nd & Hnode & _).
        eapply prioritizeTaskThing_not_lower_tracked; eauto.
      * by apply prioritizeTaskThing_new_tracked.
    + destruct (_taskIdToHeapNode s !! thing_id t) as [n|] eqn:Hmap.
      * destruct (Htracked _ _ Hmap) as (_ & nd & Hnode & _).
        eapply prioritizeTaskThing_not_lower_keyed; eauto.
      * by apply prioritizeTaskThing_new_keyed.
Qed.

Lemma popNextAvailableTask_tracked (s s' : TaskPriorities) (t : TaskThing) :
  tracked s → popNextAvailableTask s = Normal t s' → tracked s'.
Proof.
  intros Htracked
    (n & nd & _ & Hnode & -> & Hheap & Hmap & _)%popNextAvailableTask_inv id m.
  unfold node_at. rewrite Hheap, Hmap. simpl.
  intros [Hne Hid]%lookup_delete_Some.
  destruct (Htracked _ _ Hid) as (Hlive & ndm & Hndm & Hidm).
  split; [|by exists ndm].
  apply elem_of_remove_ref. split; [|done].
  intros ->. congruence.
Qed.

Lemma removeTaskThing_tracked (taskId : TaskId) (s : TaskPriorities) :
  tracked s → tracked (removeTaskThing taskId s).
Proof.
  intros Htracked. unfold removeTaskThing.
  destruct (_taskIdToHeapNode s !! taskId) as [n|] eqn:Hmap; [|done]. simpl.
  destruct (node_at s n) as [nd|] eqn:Hnode; [|done]. simpl.
  intros id m. unfold node_at. simpl.
  intros [Hne Hid]%lookup_delete_Some.
  destruct (Htracked _ _ Hid) as (Hlive & ndm & Hndm & Hidm).
  split; [|by exists ndm].
  apply elem_of_remove_ref. split; [|done].
  intros ->. destruct (Htracked _ _ Hmap) as (_ & nd' & Hnd' & Hid').
  congruence.
Qed.

(** After [removeTaskThing] on an index whose map and heap agree in both
    directions, the id has no node in the heap any more. *)
Lemma removeTaskThing_tracked_gone (taskId : TaskId) (s : TaskPriorities) :
  tracked s →
  (∀ n nd, n ∈ FibonacciHeap.live (_prioritizedTasks s) → node_at s n = Some nd →
           _taskIdToHeapNode s !! thing_id (value nd) = Some n) →
  ∀ t, t ∈ entries (removeTaskThing taskId s) → thing_id t ≠ taskId.
Proof.
  intros Htracked Hall t. unfold removeTaskThing.
  destruct (_taskIdToHeapNode s !! taskId) as [n|] eqn:Hmap; simpl.
  - destruct (node_at s n) as [nd|] eqn:Hnode; simpl.
    + unfold entries, node_at. simpl.
      intros (m & [Hne Hm]%elem_of_remove_ref & Ht)%list_elem_of_omap Heq.
      destruct (FibonacciHeap.nodes (_prioritizedTasks s) !! m) as [ndm|] eqn:Hndm;
        [|done].
      injection Ht as <-. specialize (Hall m ndm Hm Hndm). congruence.
    + destruct (Htracked _ _ Hmap) as (_ & nd & Hnd & _). congruence.
  - unfold entries.
    intros (m & Hm & Ht)%list_elem_of_omap Heq.
    destruct (node_at s m) as [ndm|] eqn:Hndm; [|done].
    injection Ht as <-. specialize (Hall m ndm Hm Hndm). congruence.
Qed.

(** ** Plan and execute *)

Lemma Co_bind_trace {A B} (f : A → Co B) (c : Co A) :
  ∃ tr', trace (c ≫= f) = trace c ++ tr' ∧
         (∀ e, outcome c = inl e → tr' = [] ∧ outcome (c ≫= f) = inl e) ∧
         (∀ a, outcome c = inr a → tr' = trace (f a) ∧
                                   outcome (c ≫= f) = outcome (f a)).
Proof.
  destruct c as [tr [e|a]]; unfold mbind, Co_bind, trace, outcome; simpl.
  - exists []. rewrite app_nil_r. split; [done|]. split; [|done].
    by intros ? [= <-].
  - destruct (f a) as [tr' r] eqn:Hfa. exists tr'. split; [done|].
    split; [done|]. intros ? [= <-]. by rewrite Hfa.
Qed.

Lemma store_flags_execute_calls (w : World) (imapDataName : string)
  (persistentState : StoreFlagsState) (marker : Marker) :
  let run := store_flags_execute w imapDataName persistentState marker in
  (finishTask_calls run ≤ 1)%nat ∧
  (outcome run = inr () →
   ∃ earlier,
     trace run
     = earlier ++ [FinishTask (ComplexTaskState
                     {| umidChanges := delete (marker_umid marker)
                                         (umidChanges persistentState) |})] ∧
     filter is_finishTask earlier = []) ∧
  (∀ e, acquireAccount w (marker_accountId marker) = inl e →
        outcome run = inl e ∧ finishTask_calls run = 0%nat).
Proof.
  cbv zeta. unfold store_flags_execute. split; [|split].
  - co_cases; lia.
  - co_cases; intros Hout; try discriminate;
      first [by eexists [_; _; _; _] | by eexists [_; _; _] | by eexists [_; _]].
  - intros e He. co_unfold. by rewrite He.
Qed.










(** C8.  When [store_flags]'s execute completes for a marker, it has called
    [finishTask] once, as its last operation, with the persistent state as
    [complexTaskState]; in that state the [umidChanges] entry of the marker's
    umid is gone and the entries of the other umids are as they were. *)
Theorem store_flags_execute_clears_changes (w : World) (imapDataName : string)
  (persistentState : StoreFlagsState) (marker : Marker) :
  let run := store_flags_execute w imapDataName persistentState marker in
  outcome run = inr () →
  ∃ earlier committed,
    trace run = earlier ++ [FinishTask (ComplexTaskState committed)] ∧
    filter is_finishTask earlier = [] ∧
    finishTask_calls run = 1%nat ∧
    umidChanges committed !! marker_umid marker = None ∧
    ∀ umid, umid ≠ marker_umid marker →
            umidChanges committed !! umid = umidChanges persistentState !! umid.
Proof.
  cbv zeta. intros Hout.
  destruct (store_flags_execute_calls w imapDataName persistentState marker)
    as (_ & Hs2 & _).
  destruct (Hs2 Hout) as (earlier & Htrace & Hearlier).
  eexists earlier, _. split; [exact Htrace|]. split; [done|]. split; [|split].
  - unfold finishTask_calls. by rewrite Htrace, filter_app, Hearlier.
  - simpl. apply lookup_delete_eq.
  - intros umid Hne. simpl. by apply lookup_delete_ne.
Qed.

Lemma store_flags_execute_clears_changes_witness :
  outcome (store_flags_execute working_world "flags" pending_seen marker_m) = inr () ∧
  ∃ earlier committed,
    trace (store_flags_execute working_world "flags" pending_seen marker_m)
    = earlier ++ [FinishTask (ComplexTaskState committed)] ∧
    filter is_finishTask earlier = [] ∧
    finishTask_calls (store_flags_execute working_world "flags" pending_seen marker_m)
    = 1%nat ∧
    umidChanges committed !! "m" = None ∧
    ∀ umid, umid ≠ "m" →
            umidChanges committed !! umid = umidChanges pending_seen !! umid.
Proof.
  split; [reflexivity|].
  apply (store_flags_execute_clears_changes working_world "flags" pending_seen
           marker_m).
  reflexivity.
Defined.

(** Without a change-set for the marker's umid, execute does not complete. *)
Lemma store_flags_execute_needs_changes (w : World) (imapDataName : string)
  (persistentState : StoreFlagsState) (marker : Marker) :
  umidChanges persistentState !! marker_umid marker = None →
  outcome (store_flags_execute w imapDataName persistentState marker) ≠ inr ().
Proof.
  intros Hnone. unfold store_flags_execute. rewrite Hnone. by co_cases.
Qed.

(** C9.  [append_message]'s plan issues one operation, the [finishTask] call
    that records the planned task as [taskState]; the planned task has empty
    lists as [resources], [exclusiveResources] and [priorityTags] and every
    other field as the raw task has it; naming no resource, it is ready
    whatever resources are held. *)
Theorem append_message_plan_spec (w : World) (rawTask : gmap string JSValue) :
  ∃ plannedTask,
    trace (append_message_plan w rawTask) = [FinishTask (TaskState plannedTask)] ∧
    outcome (append_message_plan w rawTask) = finishTask w (TaskState plannedTask) ∧
    plannedTask !! "resources" = Some (JSArray []) ∧
    plannedTask !! "exclusiveResources" = Some (JSArray []) ∧
    plannedTask !! "priorityTags" = Some (JSArray []) ∧
    (∀ field, field ≠ "resources" → field ≠ "exclusiveResources" →
              field ≠ "priorityTags" → plannedTask !! field = rawTask !! field) ∧
    (∀ held, immediately_ready held plannedTask = true).
Proof.
  eexists. split; [reflexivity|]. split; [reflexivity|].
  split; [by simplify_map_eq|]. split; [by simplify_map_eq|].
  split; [by simplify_map_eq|]. split.
  - intros field H1 H2 H3. unfold shallowClone. by simplify_map_eq.
  - intros held. unfold immediately_ready. by simplify_map_eq.
Qed.

Lemma append_message_plan_spec_witness :
  ∃ plannedTask,
    trace (append_message_plan working_world raw_append)
    = [FinishTask (TaskState plannedTask)] ∧
    plannedTask !! "resources" = Some (JSArray []) ∧
    plannedTask !! "accountId" = Some (JSString "acct") ∧
    plannedTask !! "priorityTags" = Some (JSArray []).
Proof.
  destruct (append_message_plan_spec working_world raw_append)
    as (plannedTask & Htrace & _ & Hres & _ & Htags & Hother & _).
  exists plannedTask. split; [exact Htrace|]. split; [exact Hres|].
  split; [|exact Htags].
  rewrite Hother by done. reflexivity.
Defined.

(** ** Tag tracking *)

Lemma occurrences_cons {A} `{EqDecision A} (k a : A) (l : list A) :
  occurrences k (a :: l)
  = if decide (a = k) then S (occurrences k l) else occurrences k l.
Proof.
  unfold occurrences. rewrite filter_cons. by case_decide.
Qed.

Lemma setup_tag_lookup (n : NodeRef) (m : gmap PriorityTag (list NodeRef))
  (tag k : PriorityTag) :
  setup_tag n m tag !! k
  = if decide (tag = k) then setup_entry n (m !! k) else m !! k.
Proof.
  unfold setup_tag, setup_entry. case_decide as Hk.
  - subst k. by destruct (m !! tag); rewrite lookup_insert_eq.
  - by destruct (m !! tag); rewrite lookup_insert_ne.
Qed.

Lemma cleanup_tag_lookup (pn : option NodeRef)
  (m : gmap PriorityTag (list NodeRef)) (tag k : PriorityTag) :
  cleanup_tag pn m tag !! k
  = if decide (tag = k) then cleanup_entry pn (m !! k) else m !! k.
Proof.
  unfold cleanup_tag, cleanup_entry. case_decide as Hk.
  - subst k. destruct (m !! tag) as [nodes|] eqn:Hm; [|done].
    destruct (splice_node pn nodes);
      by rewrite ?lookup_delete_eq, ?lookup_insert_eq.
  - destruct (m !! tag) as [nodes|]; [|done].
    destruct (splice_node pn nodes);
      by rewrite ?lookup_delete_ne, ?lookup_insert_ne.
Qed.

Lemma foldl_setup_tag_lookup (n : NodeRef) (tags : list PriorityTag) :
  ∀ (m : gmap PriorityTag (list NodeRef)) k,
    foldl (setup_tag n) m tags !! k
    = Nat.iter (occurrences k tags) (setup_entry n) (m !! k).
Proof.
  induction tags as [|tag tags IH]; intros m k; simpl; [done|].
  rewrite IH, setup_tag_lookup, occurrences_cons.
  case_decide; [|done]. by rewrite Nat.iter_succ_r.
Qed.

Lemma foldl_cleanup_tag_lookup (pn : option NodeRef) (tags : list PriorityTag) :
  ∀ (m : gmap PriorityTag (list NodeRef)) k,
    foldl (cleanup_tag pn) m tags !! k
    = Nat.iter (occurrences k tags) (cleanup_entry pn) (m !! k).
Proof.
  induction tags as [|tag tags IH]; intros m k; simpl; [done|].
  rewrite IH, cleanup_tag_lookup, occurrences_cons.
  case_decide; [|done]. by rewrite Nat.iter_succ_r.
Qed.

Lemma iter_setup_entry (n : NodeRef) (c : nat) (o : option (list NodeRef)) :
  Nat.iter c (setup_entry n) o
  = match c with O => o | S _ => Some (default [] o ++ replicate c n) end.
Proof.
  induction c as [|c IH]; [done|]. simpl. rewrite IH. unfold setup_entry.
  destruct c as [|c]; [done|]. simpl. rewrite <- app_assoc. do 3 f_equal.
  simpl. f_equal. exact (eq_sym (replicate_S_end c n)).
Qed.

Lemma iter_cleanup_entry_undefined (c : nat) (o : option (list NodeRef)) :
  (∀ nodes, o = Some nodes → nodes ≠ []) →
  Nat.iter c (cleanup_entry None) o = o.
Proof.
  intros Hne. induction c as [|c IH]; [done|]. simpl. rewrite IH.
  destruct o as [[|n nodes]|]; [|done..]. by destruct (Hne [] eq_refl).
Qed.

Lemma remove_first_app_replicate (n : NodeRef) (l : list NodeRef) (c : nat) :
  n ∉ l → remove_first n (l ++ replicate (S c) n) = l ++ replicate c n.
Proof.
  intros Hn. induction l as [|m l IH]; simpl.
  - by rewrite decide_True.
  - apply not_elem_of_cons in Hn as [Hne Hn].
    rewrite decide_False by done. f_equal. by apply IH.
Qed.

Lemma cleanup_entry_replicate (n : NodeRef) (l : list NodeRef) (c : nat) :
  n ∉ l →
  cleanup_entry (Some n) (Some (l ++ replicate (S c) n))
  = match l ++ replicate c n with [] => None | nodes => Some nodes end.
Proof.
  intros Hn. unfold cleanup_entry, splice_node.
  by rewrite remove_first_app_replicate.
Qed.

Lemma iter_cleanup_entry_old (n : NodeRef) (l : list NodeRef) (c : nat) :
  l ≠ [] → n ∉ l →
  Nat.iter c (cleanup_entry (Some n)) (Some (l ++ replicate c n)) = Some l.
Proof.
  intros Hl Hn. induction c as [|c IH]; [by rewrite app_nil_r|].
  rewrite Nat.iter_succ_r, cleanup_entry_replicate by done.
  destruct l as [|m l]; [done|]. exact IH.
Qed.

Lemma iter_cleanup_entry_new (n : NodeRef) (c : nat) :
  Nat.iter (S c) (cleanup_entry (Some n)) (Some (replicate (S c) n)) = None.
Proof.
  induction c as [|c IH]; [by simpl; rewrite decide_True|].
  rewrite Nat.iter_succ_r.
  pose proof (cleanup_entry_replicate n [] (S c) (not_elem_of_nil n)) as Hstep.
  rewrite !app_nil_l in Hstep. rewrite Hstep. exact IH.
Qed.

Lemma iter_cleanup_entry_fresh (n : NodeRef) (c : nat) (o : option (list NodeRef)) :
  (∀ nodes, o = Some nodes → nodes ≠ [] ∧ n ∉ nodes) →
  Nat.iter c (cleanup_entry (Some n)) (Nat.iter c (setup_entry n) o) = o.
Proof.
  intros Ho. rewrite iter_setup_entry. destruct c as [|c]; [done|].
  destruct o as [nodes|].
  - destruct (Ho nodes eq_refl) as [Hne Hn]. by apply iter_cleanup_entry_old.
  - apply iter_cleanup_entry_new.
Qed.

Lemma elem_of_remove_first (n m : NodeRef) (l : list NodeRef) :
  m ∈ remove_first n l → m ∈ l.
Proof.
  induction l as [|a l IH]; simpl; [done|].
  case_decide; [by apply list_elem_of_further|].
  intros [->|Hm]%elem_of_cons; [apply list_elem_of_here|].
  by apply list_elem_of_further, IH.
Qed.

Lemma setup_tag_tidy (Q : NodeRef → Prop) (n : NodeRef)
  (m : gmap PriorityTag (list NodeRef)) (tag : PriorityTag) :
  Q n → tidy_tags Q m → tidy_tags Q (setup_tag n m tag).
Proof.
  intros Hn Hm k nodes. rewrite setup_tag_lookup. case_decide as Hk; [|apply Hm].
  unfold setup_entry. intros [= <-]. split.
  - by destruct (default [] (m !! k)).
  - intros a [Ha|Ha%list_elem_of_singleton]%elem_of_app; [|by subst].
    destruct (m !! k) as [old|] eqn:Hold; [by apply (Hm k old)|].
    by apply not_elem_of_nil in Ha.
Qed.

Lemma cleanup_tag_tidy (Q : NodeRef → Prop) (pn : option NodeRef)
  (m : gmap PriorityTag (list NodeRef)) (tag : PriorityTag) :
  tidy_tags Q m → tidy_tags Q (cleanup_tag pn m tag).
Proof.
  intros Hm k nodes. rewrite cleanup_tag_lookup. case_decide as Hk; [|apply Hm].
  unfold cleanup_entry. destruct (m !! k) as [old|] eqn:Hold; [|done].
  destruct (splice_node pn old) as [|a l] eqn:Hsplice; [done|].
  intros [= <-]. split; [done|]. intros b Hb.
  apply (Hm k old Hold). rewrite <- Hsplice in Hb.
  destruct pn as [n|]; [by eapply elem_of_remove_first|done].
Qed.

Lemma foldl_setup_tag_tidy (Q : NodeRef → Prop) (n : NodeRef)
  (tags : list PriorityTag) :
  Q n → ∀ m, tidy_tags Q m → tidy_tags Q (foldl (setup_tag n) m tags).
Proof.
  intros Hn. induction tags as [|tag tags IH]; intros m Hm; simpl; [done|].
  by apply IH, setup_tag_tidy.
Qed.

Lemma foldl_cleanup_tag_tidy (Q : NodeRef → Prop) (pn : option NodeRef)
  (tags : list PriorityTag) :
  ∀ m, tidy_tags Q m → tidy_tags Q (foldl (cleanup_tag pn) m tags).
Proof.
  induction tags as [|tag tags IH]; intros m Hm; simpl; [done|].
  by apply IH, cleanup_tag_tidy.
Qed.

Lemma tidy_tags_weaken (Q Q' : NodeRef → Prop)
  (m : gmap PriorityTag (list NodeRef)) :
  (∀ n, Q n → Q' n) → tidy_tags Q m → tidy_tags Q' m.
Proof.
  intros HQ Hm tag nodes Htag. destruct (Hm tag nodes Htag) as [Hne Hall].
  split; [done|]. intros n Hn. by apply HQ, Hall.
Qed.

Lemma reprioritize_projections (node : NodeRef) (newKey : Z) (s : TaskPriorities) :
  _taskIdToHeapNode (_reprioritizeHeapNode node newKey s) = _taskIdToHeapNode s ∧
  _priorityTagToHeapNodes (_reprioritizeHeapNode node newKey s)
  = _priorityTagToHeapNodes s ∧
  _priorityTagsByOwner (_reprioritizeHeapNode node newKey s)
  = _priorityTagsByOwner s ∧
  _summedPriorityTags (_reprioritizeHeapNode node newKey s) = _summedPriorityTags s.
Proof.
  unfold _reprioritizeHeapNode. destruct (node_at s node); [|done].
  by repeat case_match.
Qed.

Lemma reprioritize_value (node : NodeRef) (newKey : Z) (s : TaskPriorities)
  (nd : HeapNode) :
  node_at s node = Some nd →
  value <$> node_at (_reprioritizeHeapNode node newKey s) node = Some (value nd).
Proof.
  intros Hnode. pose proof Hnode as Hlt%lookup_lt_Some.
  destruct (Z.lt_trichotomy newKey (key nd)) as [Hc|[->|Hc]].
  - rewrite (reprioritize_decrease _ _ _ _ Hnode Hc). unfold node_at in *. simpl.
    by rewrite list_lookup_alter_eq, Hnode.
  - by rewrite (reprioritize_same _ _ _ Hnode), Hnode.
  - rewrite (reprioritize_increase _ _ _ _ Hnode Hc). unfold node_at in *. simpl.
    by rewrite (lookup_app_l_Some _ _ _ _ Hnode).
Qed.

(** What the heap looks like after a re-weighting: the nodes allocated before
    still are, and the heap holds the same references, or the same but [node]
    and one new reference behind them. *)
Lemma reprioritize_heap_shape (node : NodeRef) (newKey : Z) (s : TaskPriorities) :
  let h := _prioritizedTasks s in
  let h' := _prioritizedTasks (_reprioritizeHeapNode node newKey s) in
  (length (FibonacciHeap.nodes h) = length (FibonacciHeap.nodes h') ∧
   FibonacciHeap.live h' = FibonacciHeap.live h) ∨
  (length (FibonacciHeap.nodes h') = S (length (FibonacciHeap.nodes h)) ∧
   FibonacciHeap.live h'
   = FibonacciHeap.remove_ref node (FibonacciHeap.live h)
       ++ [length (FibonacciHeap.nodes h)]).
Proof.
  cbv zeta. unfold _reprioritizeHeapNode.
  destruct (node_at s node) as [nd|]; [|by left].
  destruct (newKey <? key nd); simpl.
  - left. by rewrite length_alter.
  - destruct (newKey >? key nd); simpl; [|by left].
    right. rewrite length_app. simpl. split; [lia|done].
Qed.

Lemma NoDup_remove_ref_snoc (n new : NodeRef) (l : list NodeRef) :
  NoDup l → new ∉ l → NoDup (FibonacciHeap.remove_ref n l ++ [new]).
Proof.
  intros Hl Hnew. apply NoDup_app. split; [by apply NoDup_filter|]. split.
  - intros m [_ Hm]%elem_of_remove_ref Heq%list_elem_of_singleton. by subst.
  - apply NoDup_singleton.
Qed.

Lemma well_formed_new : well_formed new_TaskPriorities.
Proof.
  split; [apply NoDup_nil_2|]. split; [|split].
  - intros n Hn. by apply not_elem_of_nil in Hn.
  - intros id n Hid. simpl in Hid. by rewrite lookup_empty in Hid.
  - intros tag nodes Htag. simpl in Htag. by rewrite lookup_empty in Htag.
Qed.

Lemma prioritizeTaskThing_tags_new (t : TaskThing) (s : TaskPriorities) :
  _taskIdToHeapNode s !! thing_id t = None →
  _priorityTagToHeapNodes (prioritizeTaskThing t s)
  = foldl (setup_tag (length (FibonacciHeap.nodes (_prioritizedTasks s))))
          (_priorityTagToHeapNodes s) (thing_priorityTags t).
Proof. intros Hmap. unfold prioritizeTaskThing. by rewrite Hmap. Qed.

Lemma prioritizeTaskThing_map_new (t : TaskThing) (s : TaskPriorities) :
  _taskIdToHeapNode s !! thing_id t = None →
  _taskIdToHeapNode (prioritizeTaskThing t s)
  = <[thing_id t := length (FibonacciHeap.nodes (_prioritizedTasks s))]>
      (_taskIdToHeapNode s).
Proof. intros Hmap. unfold prioritizeTaskThing. by rewrite Hmap. Qed.

Lemma prioritizeTaskThing_tags_known (t : TaskThing) (s : TaskPriorities)
  (priorityNode : NodeRef) (nd : HeapNode) :
  _taskIdToHeapNode s !! thing_id t = Some priorityNode →
  node_at s priorityNode = Some nd →
  _priorityTagToHeapNodes (prioritizeTaskThing t s)
  = foldl (setup_tag priorityNode)
          (foldl (cleanup_tag None) (_priorityTagToHeapNodes s)
                 (thing_priorityTags (value nd)))
          (thing_priorityTags t).
Proof.
  intros Hmap Hnode. unfold prioritizeTaskThing. rewrite Hmap.
  pose proof (reprioritize_value priorityNode (nodeKey s t) s nd Hnode) as Hvalue.
  destruct (node_at (_reprioritizeHeapNode priorityNode (nodeKey s t) s)
              priorityNode) as [nd'|]; [|done].
  injection Hvalue as ->. simpl.
  by destruct (reprioritize_projections priorityNode (nodeKey s t) s)
    as (_ & -> & _).
Qed.

Lemma prioritizeTaskThing_owners (t : TaskThing) (s : TaskPriorities) :
  _priorityTagsByOwner (prioritizeTaskThing t s) = _priorityTagsByOwner s.
Proof.
  unfold prioritizeTaskThing.
  destruct (_taskIdToHeapNode s !! thing_id t) as [priorityNode|]; simpl; [|done].
  destruct (node_at _ priorityNode); simpl;
    by destruct (reprioritize_projections priorityNode (nodeKey s t) s)
      as (_ & _ & -> & _).
Qed.

Lemma prioritizeTaskThing_well_formed (t : TaskThing) (s : TaskPriorities) :
  well_formed s → well_formed (prioritizeTaskThing t s).
Proof.
  intros (Hnodup & Hlive & Hmapped & Htags). unfold well_formed, allocated in *.
  destruct (_taskIdToHeapNode s !! thing_id t) as [pn|] eqn:Hmap.
  - destruct (lookup_lt_is_Some_2 _ _ (Hmapped _ _ Hmap)) as [nd Hnode].
    rewrite (prioritizeTaskThing_heap_known _ _ _ Hmap),
      (prioritizeTaskThing_map_known _ _ _ Hmap),
      (prioritizeTaskThing_tags_known _ _ _ _ Hmap Hnode).
    simpl. rewrite length_alter.
    destruct (reprioritize_heap_shape pn (nodeKey s t) s) as [[Hlen ->]|[Hlen ->]].
    + rewrite <- Hlen. split; [done|]. split; [done|]. split; [done|].
      apply foldl_setup_tag_tidy; [by eapply Hmapped|].
      by apply foldl_cleanup_tag_tidy.
    + rewrite Hlen. split; [|split; [|split]].
      * apply NoDup_remove_ref_snoc; [done|]. intros Hin%Hlive. lia.
      * intros n [[_ Hn]%elem_of_remove_ref|Hn%list_elem_of_singleton]%elem_of_app;
          [specialize (Hlive n Hn)|]; lia.
      * intros id n Hid. specialize (Hmapped id n Hid). lia.
      * apply foldl_setup_tag_tidy; [specialize (Hmapped _ _ Hmap); lia|].
        apply foldl_cleanup_tag_tidy.
        eapply tidy_tags_weaken; [|exact Htags]. simpl. intros n Hn. lia.
  - rewrite (prioritizeTaskThing_heap_new _ _ Hmap),
      (prioritizeTaskThing_map_new _ _ Hmap),
      (prioritizeTaskThing_tags_new _ _ Hmap).
    simpl. rewrite length_app. simpl. split; [|split; [|split]].
    + apply NoDup_app. split; [done|]. split; [|apply NoDup_singleton].
      intros n Hn%Hlive Heq%list_elem_of_singleton. lia.
    + intros n [Hn%Hlive|Hn%list_elem_of_singleton]%elem_of_app; lia.
    + intros id n. destruct (decide (id = thing_id t)) as [->|Hne].
      * rewrite lookup_insert_eq. intros [= <-]. lia.
      * rewrite lookup_insert_ne by done. intros Hid%Hmapped. lia.
    + apply foldl_setup_tag_tidy; [lia|].
      eapply tidy_tags_weaken; [|exact Htags]. simpl. intros n Hn. lia.
Qed.

Lemma popNextAvailableTask_well_formed (s : TaskPriorities) :
  well_formed s → well_formed (final_state (popNextAvailableTask s)).
Proof.
  intros (Hnodup & Hlive & Hmapped & Htags).
  unfold popNextAvailableTask, FibonacciHeap.extractMinimum.
  destruct (FibonacciHeap.findMinimum (_prioritizedTasks s)) as [n|]; simpl.
  - assert (well_formed
              (with_heap (λ _, {| FibonacciHeap.nodes :=
                                    FibonacciHeap.nodes (_prioritizedTasks s);
                                  FibonacciHeap.live :=
                                    FibonacciHeap.remove_ref n
                                      (FibonacciHeap.live (_prioritizedTasks s)) |})
                 s)) as Hwf.
    { unfold well_formed, allocated. simpl. split; [by apply NoDup_filter|].
      split; [|done]. intros m [_ Hm]%elem_of_remove_ref. by apply Hlive. }
    unfold node_at at 1. simpl.
    destruct (FibonacciHeap.nodes (_prioritizedTasks s) !! n) as [nd|]; simpl;
      [|done].
    destruct Hwf as (Hnodup' & Hlive' & Hmapped' & Htags').
    unfold well_formed, allocated in *. simpl in *.
    split; [done|]. split; [done|]. split.
    + intros id m [_ Hid]%lookup_delete_Some. by eapply Hmapped.
    + by apply foldl_cleanup_tag_tidy.
  - by rewrite with_heap_id.
Qed.

Lemma removeTaskThing_well_formed (taskId : TaskId) (s : TaskPriorities) :
  well_formed s → well_formed (removeTaskThing taskId s).
Proof.
  intros (Hnodup & Hlive & Hmapped & Htags). unfold removeTaskThing.
  destruct (_taskIdToHeapNode s !! taskId) as [n|]; simpl; [|done].
  destruct (node_at s n) as [nd|]; simpl; [|done].
  unfold well_formed, allocated in *. simpl.
  split; [by apply NoDup_filter|]. split; [|split].
  - intros m [_ Hm]%elem_of_remove_ref. by apply Hlive.
  - intros id m [_ Hid]%lookup_delete_Some. by eapply Hmapped.
  - by apply foldl_cleanup_tag_tidy.
Qed.

(** X1.  Every operation of the index keeps it well formed: the references in
    the heap stay distinct and allocated, the two maps keep pointing at
    allocated nodes, and no tag is left mapped to an empty array.  This holds
    for each branch of [prioritizeTaskThing], for [popNextAvailableTask]
    (whether it returns or throws), for [removeTaskThing] and for
    [setPriorityBoostTags]. *)
Theorem operations_keep_well_formed (s : TaskPriorities) (t : TaskThing)
  (taskId : TaskId) (owningId : PriorityOwner)
  (tagsWithValues : option (gmap PriorityTag Z)) :
  well_formed s →
  well_formed (prioritizeTaskThing t s) ∧
  well_formed (final_state (popNextAvailableTask s)) ∧
  well_formed (removeTaskThing taskId s) ∧
  well_formed (final_state (setPriorityBoostTags owningId tagsWithValues s)).
Proof.
  intros Hwf. split; [by apply prioritizeTaskThing_well_formed|].
  split; [by apply popNextAvailableTask_well_formed|].
  split; [by apply removeTaskThing_well_formed|].
  rewrite setPriorityBoostTags_throws. by destruct tagsWithValues.
Qed.

Lemma operations_keep_well_formed_witness :
  well_formed new_TaskPriorities ∧
  well_formed (prioritizeTaskThing (tagged_marker "m" ["folder:inbox"] 3)
                 new_TaskPriorities) ∧
  well_formed (removeTaskThing "m" new_TaskPriorities).
Proof.
  split; [exact well_formed_new|].
  destruct (operations_keep_well_formed new_TaskPriorities
              (tagged_marker "m" ["folder:inbox"] 3) "m" "viewA" None
              well_formed_new) as (Hp & _ & Hr & _).
  by split.
Defined.

(** ** Insertion, removal and pop together *)

Lemma remove_ref_not_in (n : NodeRef) (l : list NodeRef) :
  n ∉ l → FibonacciHeap.remove_ref n l = l.
Proof.
  unfold FibonacciHeap.remove_ref. induction l as [|m l IH]; [done|].
  intros [Hne Hn]%not_elem_of_cons.
  rewrite filter_cons_True by done. by rewrite IH.
Qed.

Lemma remove_ref_middle (n : NodeRef) (l1 l2 : list NodeRef) :
  NoDup (l1 ++ n :: l2) → FibonacciHeap.remove_ref n (l1 ++ n :: l2) = l1 ++ l2.
Proof.
  intros (_ & Hdisj & [Hn2 _]%NoDup_cons)%NoDup_app.
  unfold FibonacciHeap.remove_ref. rewrite filter_app, filter_cons_False by naive_solver.
  fold (FibonacciHeap.remove_ref n l1). fold (FibonacciHeap.remove_ref n l2).
  rewrite !remove_ref_not_in; [done..|].
  intros Hn1. apply (Hdisj n Hn1), list_elem_of_here.
Qed.

Lemma omap_node_ext (ns ns' : list HeapNode) (l : list NodeRef) :
  (∀ n, n ∈ l → ns' !! n = ns !! n) →
  omap (λ n, value <$> ns' !! n) l = omap (λ n, value <$> ns !! n) l.
Proof.
  induction l as [|n l IH]; intros Hext; csimpl; [done|].
  rewrite (Hext n) by apply list_elem_of_here.
  rewrite IH; [done|]. intros m Hm. by apply Hext, list_elem_of_further.
Qed.

Lemma tags_round_trip (n : NodeRef) (tags : list PriorityTag)
  (m : gmap PriorityTag (list NodeRef)) :
  tidy_tags (λ a, a ≠ n) m →
  foldl (cleanup_tag (Some n)) (foldl (setup_tag n) m tags) tags = m.
Proof.
  intros Hm. apply map_eq. intros k.
  rewrite foldl_cleanup_tag_lookup, foldl_setup_tag_lookup.
  apply iter_cleanup_entry_fresh. intros nodes Hk.
  destruct (Hm k nodes Hk) as [Hne Hall]. split; [done|].
  intros Hn. by apply (Hall n Hn).
Qed.

Lemma well_formed_fresh_ref (s : TaskPriorities) :
  well_formed s →
  ¬ (length (FibonacciHeap.nodes (_prioritizedTasks s))
       ∈ FibonacciHeap.live (_prioritizedTasks s)) ∧
  tidy_tags (λ a, a ≠ length (FibonacciHeap.nodes (_prioritizedTasks s)))
            (_priorityTagToHeapNodes s).
Proof.
  intros (_ & Hlive & _ & Htags). unfold allocated in *. split.
  - intros Hin%Hlive. lia.
  - eapply tidy_tags_weaken; [|exact Htags]. simpl. intros n Hn. lia.
Qed.

Lemma prioritizeTaskThing_new_state (t : TaskThing) (s : TaskPriorities) :
  _taskIdToHeapNode s !! thing_id t = None →
  prioritizeTaskThing t s
  = let n := length (FibonacciHeap.nodes (_prioritizedTasks s)) in
    {| _prioritizedTasks :=
         {| FibonacciHeap.nodes :=
              FibonacciHeap.nodes (_prioritizedTasks s)
                ++ [{| key := nodeKey s t; value := t |}];
            FibonacciHeap.live := FibonacciHeap.live (_prioritizedTasks s) ++ [n] |};
       _taskIdToHeapNode := <[thing_id t := n]> (_taskIdToHeapNode s);
       _priorityTagToHeapNodes :=
         foldl (setup_tag n) (_priorityTagToHeapNodes s) (thing_priorityTags t);
       _priorityTagsByOwner := _priorityTagsByOwner s;
       _summedPriorityTags := _summedPriorityTags s |}.
Proof. intros Hmap. unfold prioritizeTaskThing. by rewrite Hmap. Qed.

(** X2.  Prioritizing a task or marker whose id the index does not know and
    then removing that id leaves the index as it was: the same heap content,
    the same id map, the same tag map (also when the task repeats a tag), the
    same boosts; all that stays is the node object that was created, which
    nothing refers to. *)
Theorem removeTaskThing_after_prioritize (t : TaskThing) (s : TaskPriorities) :
  well_formed s → _taskIdToHeapNode s !! thing_id t = None →
  removeTaskThing (thing_id t) (prioritizeTaskThing t s)
  = with_dead_node (nodeKey s t) t s.
Proof.
  intros Hwf Hmap. destruct (well_formed_fresh_ref s Hwf) as [Hfresh Htidy].
  rewrite (prioritizeTaskThing_new_state _ _ Hmap). cbv zeta.
  unfold removeTaskThing, node_at. simpl. rewrite lookup_insert_eq. simpl.
  rewrite lookup_app_r, Nat.sub_diag by lia. simpl.
  unfold with_dead_node, with_heap, _cleanupTaskPriorityTracking,
    with_priorityTagToHeapNodes, with_taskIdToHeapNode, FibonacciHeap.delete.
  simpl. f_equal.
  - f_equal. unfold FibonacciHeap.remove_ref. rewrite filter_app.
    rewrite filter_cons_False, filter_nil, app_nil_r by naive_solver.
    by apply remove_ref_not_in.
  - by apply delete_insert_id.
  - by apply tags_round_trip.
Qed.

Lemma removeTaskThing_after_prioritize_witness :
  well_formed new_TaskPriorities ∧
  removeTaskThing "m" (prioritizeTaskThing
                         (tagged_marker "m" ["folder:inbox"; "folder:inbox"] 3)
                         new_TaskPriorities)
  = with_dead_node (-3) (tagged_marker "m" ["folder:inbox"; "folder:inbox"] 3)
      new_TaskPriorities.
Proof.
  split; [exact well_formed_new|].
  apply (removeTaskThing_after_prioritize
           (tagged_marker "m" ["folder:inbox"; "folder:inbox"] 3)
           new_TaskPriorities well_formed_new).
  reflexivity.
Defined.

Lemma least_snoc_smaller (ns : list HeapNode) (x : NodeRef) (l : list NodeRef) :
  ∀ best,
    (∀ m, m ∈ best :: l →
          FibonacciHeap.node_key ns x < FibonacciHeap.node_key ns m) →
    FibonacciHeap.least ns best (l ++ [x]) = x.
Proof.
  induction l as [|a l IH]; intros best Hall; simpl.
  - rewrite (proj2 (Z.ltb_lt _ _)); [done|]. apply Hall, list_elem_of_here.
  - destruct (FibonacciHeap.node_key ns a <? FibonacciHeap.node_key ns best);
      apply IH; intros m [->|Hm]%elem_of_cons; apply Hall;
      auto using list_elem_of_here, list_elem_of_further.
Qed.

Lemma node_key_app (ns : list HeapNode) (nd : HeapNode) (n : NodeRef) :
  (n < length ns)%nat →
  FibonacciHeap.node_key (ns ++ [nd]) n = FibonacciHeap.node_key ns n.
Proof. intros Hn. unfold FibonacciHeap.node_key. by rewrite lookup_app_l. Qed.

Lemma node_key_new (ns : list HeapNode) (nd : HeapNode) :
  FibonacciHeap.node_key (ns ++ [nd]) (length ns) = key nd.
Proof.
  unfold FibonacciHeap.node_key. by rewrite lookup_app_r, Nat.sub_diag by lia.
Qed.

(** X3.  A task or marker of unknown id whose key is strictly below every key
    in the heap is what the next pop returns, and that pop leaves the index as
    it was before the task came (but for the unreferenced node object). *)
Theorem popNextAvailableTask_after_prioritize (t : TaskThing) (s : TaskPriorities) :
  well_formed s → _taskIdToHeapNode s !! thing_id t = None →
  (∀ n, n ∈ FibonacciHeap.live (_prioritizedTasks s) →
        nodeKey s t
        < FibonacciHeap.node_key (FibonacciHeap.nodes (_prioritizedTasks s)) n) →
  popNextAvailableTask (prioritizeTaskThing t s)
  = Normal t (with_dead_node (nodeKey s t) t s).
Proof.
  intros Hwf Hmap Hbest. destruct (well_formed_fresh_ref s Hwf) as [Hfresh Htidy].
  destruct Hwf as (_ & Hlive & _ & _). unfold allocated in Hlive.
  rewrite (prioritizeTaskThing_new_state _ _ Hmap). cbv zeta.
  unfold popNextAvailableTask, FibonacciHeap.extractMinimum. simpl.
  assert (FibonacciHeap.findMinimum
            {| FibonacciHeap.nodes :=
                 FibonacciHeap.nodes (_prioritizedTasks s)
                   ++ [{| key := nodeKey s t; value := t |}];
               FibonacciHeap.live :=
                 FibonacciHeap.live (_prioritizedTasks s)
                   ++ [length (FibonacciHeap.nodes (_prioritizedTasks s))] |}
          = Some (length (FibonacciHeap.nodes (_prioritizedTasks s)))) as ->.
  { unfold FibonacciHeap.findMinimum. simpl.
    destruct (FibonacciHeap.live (_prioritizedTasks s)) as [|a l] eqn:Hl; [done|].
    simpl. f_equal. apply least_snoc_smaller. intros m Hm.
    rewrite node_key_new, node_key_app by (by apply Hlive).
    by apply Hbest. }
  unfold node_at. simpl. rewrite lookup_app_r, Nat.sub_diag by lia. simpl.
  unfold with_dead_node, with_heap, _cleanupTaskPriorityTracking,
    with_priorityTagToHeapNodes, with_taskIdToHeapNode.
  simpl. f_equal. f_equal.
  - f_equal. unfold FibonacciHeap.remove_ref. rewrite filter_app.
    rewrite filter_cons_False, filter_nil, app_nil_r by naive_solver.
    by apply remove_ref_not_in.
  - by apply delete_insert_id.
  - by apply tags_round_trip.
Qed.

Lemma popNextAvailableTask_after_prioritize_witness :
  well_formed two_tasks ∧
  popNextAvailableTask (prioritizeTaskThing (tagged_marker "m" ["folder:inbox"] 9)
                          two_tasks)
  = Normal (tagged_marker "m" ["folder:inbox"] 9)
      (with_dead_node (-9) (tagged_marker "m" ["folder:inbox"] 9) two_tasks).
Proof.
  assert (well_formed two_tasks) as Hwf.
  { do 2 apply prioritizeTaskThing_well_formed. exact well_formed_new. }
  split; [exact Hwf|].
  apply (popNextAvailableTask_after_prioritize
           (tagged_marker "m" ["folder:inbox"] 9) two_tasks Hwf).
  - reflexivity.
  - intros n Hn. vm_compute in Hn.
    apply elem_of_cons in Hn as [->|Hn]; [by vm_compute|].
    apply list_elem_of_singleton in Hn as ->. by vm_compute.
Defined.

(** X4.  Prioritizing a task or marker whose id the index does not know adds
    it behind the entries the heap holds, maps its id to the node created for
    it and leaves the mapping of every other id alone; the index then reports
    [false] from [hasTasksToExecute]. *)
Theorem prioritizeTaskThing_new_entry (t : TaskThing) (s : TaskPriorities) :
  well_formed s → _taskIdToHeapNode s !! thing_id t = None →
  entries (prioritizeTaskThing t s) = entries s ++ [t] ∧
  (value <$> (_taskIdToHeapNode (prioritizeTaskThing t s) !! thing_id t
               ≫= node_at (prioritizeTaskThing t s))) = Some t ∧
  (∀ id, id ≠ thing_id t →
         _taskIdToHeapNode (prioritizeTaskThing t s) !! id
         = _taskIdToHeapNode s !! id) ∧
  hasTasksToExecute (prioritizeTaskThing t s) = false.
Proof.
  intros (_ & Hlive & _ & _) Hmap. unfold allocated in Hlive.
  split; [|split; [|split]].
  - unfold entries, node_at. rewrite (prioritizeTaskThing_heap_new _ _ Hmap).
    simpl. rewrite omap_app. f_equal.
    + apply omap_node_ext. intros n Hn. apply lookup_app_l. by apply Hlive.
    + csimpl. by rewrite lookup_app_r, Nat.sub_diag by lia.
  - rewrite (prioritizeTaskThing_map_new _ _ Hmap), lookup_insert_eq. simpl.
    unfold node_at. rewrite (prioritizeTaskThing_heap_new _ _ Hmap). simpl.
    by rewrite lookup_app_r, Nat.sub_diag by lia.
  - intros id Hne. rewrite (prioritizeTaskThing_map_new _ _ Hmap).
    by rewrite lookup_insert_ne.
  - by apply hasTasksToExecute_after_insert.
Qed.

Lemma prioritizeTaskThing_new_entry_witness :
  well_formed two_tasks ∧
  entries (prioritizeTaskThing (simple_task "c" 4) two_tasks)
  = [simple_task "a" 5; simple_task "b" 3; simple_task "c" 4].
Proof.
  assert (well_formed two_tasks) as Hwf.
  { do 2 apply prioritizeTaskThing_well_formed. exact well_formed_new. }
  split; [exact Hwf|].
  destruct (prioritizeTaskThing_new_entry (simple_task "c" 4) two_tasks Hwf
              eq_refl) as [Hentries _].
  rewrite Hentries. reflexivity.
Defined.

(** X5.  On a well-formed index that is not empty, [popNextAvailableTask]
    returns, takes out of the heap exactly the entry it returns, leaving the
    others in their order, and unmaps the id of what it returns. *)
Theorem popNextAvailableTask_removes_entry (s : TaskPriorities) :
  well_formed s → hasTasksToExecute s = false →
  ∃ t s' before after,
    popNextAvailableTask s = Normal t s' ∧
    entries s = before ++ t :: after ∧
    entries s' = before ++ after ∧
    _taskIdToHeapNode s' = delete (thing_id t) (_taskIdToHeapNode s).
Proof.
  intros (Hnodup & Hlive & _ & _) Hnonempty. unfold allocated in Hlive.
  destruct (FibonacciHeap.findMinimum (_prioritizedTasks s)) as [n|] eqn:Hmin.
  2:{ unfold hasTasksToExecute, FibonacciHeap.isEmpty in Hnonempty.
      unfold FibonacciHeap.findMinimum in Hmin.
      by destruct (FibonacciHeap.live (_prioritizedTasks s)). }
  destruct (findMinimum_spec _ _ Hmin) as (l1 & l2 & Hsplit & _ & _).
  assert (n ∈ FibonacciHeap.live (_prioritizedTasks s)) as Hn.
  { rewrite Hsplit. apply elem_of_app. right. apply list_elem_of_here. }
  destruct (lookup_lt_is_Some_2 _ _ (Hlive n Hn)) as [nd Hnode].
  exists (value nd). eexists.
  exists (omap (λ m, value <$> node_at s m) l1),
    (omap (λ m, value <$> node_at s m) l2).
  split; [|split; [|split]].
  - unfold popNextAvailableTask, FibonacciHeap.extractMinimum. rewrite Hmin.
    unfold node_at. simpl. rewrite Hnode. simpl. reflexivity.
  - unfold entries. rewrite Hsplit, omap_app. csimpl.
    unfold node_at at 2. by rewrite Hnode.
  - unfold entries, node_at. simpl.
    rewrite Hsplit, remove_ref_middle by (by rewrite <- Hsplit).
    by rewrite omap_app.
  - done.
Qed.

Lemma popNextAvailableTask_removes_entry_witness :
  well_formed two_tasks ∧ hasTasksToExecute two_tasks = false ∧
  ∃ t s' before after,
    popNextAvailableTask two_tasks = Normal t s' ∧
    entries two_tasks = before ++ t :: after ∧
    entries s' = before ++ after ∧
    _taskIdToHeapNode s' = delete (thing_id t) (_taskIdToHeapNode two_tasks).
Proof.
  assert (well_formed two_tasks) as Hwf.
  { do 2 apply prioritizeTaskThing_well_formed. exact well_formed_new. }
  split; [exact Hwf|]. split; [reflexivity|].
  exact (popNextAvailableTask_removes_entry two_tasks Hwf eq_refl).
Defined.

(** ** Re-prioritizing and the tag map *)

(** X6.  Re-prioritizing an id the index knows never takes a node out of the
    tag map: [_cleanupTaskPriorityTracking] is called without the node, so it
    splices nothing, and [_setupTaskPriorityTracking] then pushes the id's
    node once more for every occurrence of a tag in the new task or marker.
    Every array of nodes is what it was, with those pushes behind it. *)
Theorem prioritizeTaskThing_known_only_adds_tags (t : TaskThing)
  (s : TaskPriorities) (priorityNode : NodeRef) (tag : PriorityTag) :
  well_formed s → _taskIdToHeapNode s !! thing_id t = Some priorityNode →
  _priorityTagToHeapNodes (prioritizeTaskThing t s) !! tag
  = match occurrences tag (thing_priorityTags t) with
    | O => _priorityTagToHeapNodes s !! tag
    | S c => Some (default [] (_priorityTagToHeapNodes s !! tag)
                     ++ replicate (S c) priorityNode)
    end.
Proof.
  intros (_ & _ & Hmapped & Htags) Hmap. unfold allocated in Hmapped.
  destruct (lookup_lt_is_Some_2 _ _ (Hmapped _ _ Hmap)) as [nd Hnode].
  rewrite (prioritizeTaskThing_tags_known _ _ _ _ Hmap Hnode).
  rewrite foldl_setup_tag_lookup, foldl_cleanup_tag_lookup.
  rewrite iter_cleanup_entry_undefined, iter_setup_entry.
  - by destruct (occurrences tag (thing_priorityTags t)).
  - intros nodes Hnodes. by apply (Htags tag nodes).
Qed.

Lemma prioritizeTaskThing_known_only_adds_tags_witness :
  well_formed (prioritizeTaskThing (tagged_marker "m" ["folder:inbox"] 3)
                 new_TaskPriorities) ∧
  _priorityTagToHeapNodes
    (prioritizeTaskThing (tagged_marker "m" [] 3)
       (prioritizeTaskThing (tagged_marker "m" ["folder:inbox"] 3)
          new_TaskPriorities)) !! "folder:inbox"
  = Some [0%nat] ∧
  _priorityTagToHeapNodes
    (prioritizeTaskThing (tagged_marker "m" ["folder:inbox"] 3)
       (prioritizeTaskThing (tagged_marker "m" ["folder:inbox"] 3)
          new_TaskPriorities)) !! "folder:inbox"
  = Some [0%nat; 0%nat].
Proof.
  assert (well_formed (prioritizeTaskThing (tagged_marker "m" ["folder:inbox"] 3)
                         new_TaskPriorities)) as Hwf.
  { apply prioritizeTaskThing_well_formed. exact well_formed_new. }
  split; [exact Hwf|]. split.
  - rewrite (prioritizeTaskThing_known_only_adds_tags (tagged_marker "m" [] 3)
               _ 0%nat "folder:inbox" Hwf eq_refl).
    reflexivity.
  - rewrite (prioritizeTaskThing_known_only_adds_tags
               (tagged_marker "m" ["folder:inbox"] 3)
               _ 0%nat "folder:inbox" Hwf eq_refl).
    reflexivity.
Defined.

(** ** removeTaskThing *)

(** X7.  [removeTaskThing] is idempotent, does nothing for an id the index
    does not map, ends with the id unmapped and every other id mapped as
    before, never changes a node object, and leaves the boosts and their sums
    alone. *)
Theorem removeTaskThing_idempotent_frame (taskId : TaskId) (s : TaskPriorities) :
  removeTaskThing taskId (removeTaskThing taskId s) = removeTaskThing taskId s ∧
  (∀ id, id ≠ taskId →
         _taskIdToHeapNode (removeTaskThing taskId s) !! id
         = _taskIdToHeapNode s !! id) ∧
  FibonacciHeap.nodes (_prioritizedTasks (removeTaskThing taskId s))
  = FibonacciHeap.nodes (_prioritizedTasks s) ∧
  _priorityTagsByOwner (removeTaskThing taskId s) = _priorityTagsByOwner s ∧
  _summedPriorityTags (removeTaskThing taskId s) = _summedPriorityTags s ∧
  (∀ n, n ∈ FibonacciHeap.live (_prioritizedTasks (removeTaskThing taskId s)) →
        n ∈ FibonacciHeap.live (_prioritizedTasks s)).
Proof.
  destruct (_taskIdToHeapNode s !! taskId) as [n|] eqn:Hmap.
  - destruct (node_at s n) as [nd|] eqn:Hnode.
    + assert (removeTaskThing taskId s
              = _cleanupTaskPriorityTracking (value nd) (Some n)
                  (with_taskIdToHeapNode (delete taskId)
                     (with_heap (FibonacciHeap.delete n) s))) as ->.
      { unfold removeTaskThing. rewrite Hmap. simpl. by rewrite Hnode. }
      split; [|split; [|split; [done|split; [done|split; [done|]]]]].
      * unfold removeTaskThing. simpl. by rewrite lookup_delete_eq.
      * intros id Hne. simpl. by rewrite lookup_delete_ne.
      * simpl. intros m [_ Hm]%elem_of_remove_ref. done.
    + assert (removeTaskThing taskId s = s) as ->.
      { unfold removeTaskThing. rewrite Hmap. simpl. by rewrite Hnode. }
      split; [|by repeat split]. unfold removeTaskThing. rewrite Hmap. simpl. by rewrite Hnode.
  - assert (removeTaskThing taskId s = s) as ->.
    { unfold removeTaskThing. by rewrite Hmap. }
    split; [|by repeat split]. unfold removeTaskThing. by rewrite Hmap.
Qed.

(** ** Boosts *)

(** X8.  Whatever it is called with, [setPriorityBoostTags] records the
    mapping for its owner (or forgets the owner, for [null]) and changes
    nothing else: the other owners, the recorded weights, the heap, and with
    them the key computed for any task or marker and the result of the next
    pop are as before the call. *)
Theorem setPriorityBoostTags_reaches_no_priority (owningId : PriorityOwner)
  (tagsWithValues : option (gmap PriorityTag Z)) (s : TaskPriorities) :
  let s' := final_state (setPriorityBoostTags owningId tagsWithValues s) in
  _priorityTagsByOwner s' !! owningId = tagsWithValues ∧
  (∀ owner, owner ≠ owningId →
            _priorityTagsByOwner s' !! owner = _priorityTagsByOwner s !! owner) ∧
  _summedPriorityTags s' = _summedPriorityTags s ∧
  _prioritizedTasks s' = _prioritizedTasks s ∧
  (∀ t, nodeKey s' t = nodeKey s t) ∧
  returned (popNextAvailableTask s') = returned (popNextAvailableTask s).
Proof.
  cbv zeta. rewrite setPriorityBoostTags_throws. simpl.
  split; [|split; [|split; [done|split; [done|split; [done|]]]]].
  - destruct tagsWithValues; [apply lookup_insert_eq|apply lookup_delete_eq].
  - intros owner Hne.
    destruct tagsWithValues; [by apply lookup_insert_ne|by apply lookup_delete_ne].
  - unfold popNextAvailableTask. simpl.
    destruct (FibonacciHeap.extractMinimum (_prioritizedTasks s)) as [[n|] h];
      simpl; [|done].
    unfold node_at. simpl. by destruct (FibonacciHeap.nodes h !! n).
Qed.

(** ** applyDelta *)

(** X9.  On sums without a zero row, [applyDelta] with a delta and then
    with the opposite delta gives back the sums it started from, whether or
    not the tag had a row and whether or not the row vanished in between. *)
Theorem applyDelta_opposite (tagToNodes : gmap PriorityTag (list NodeRef))
  (priorityTag : PriorityTag) (delta : Z) (summed : gmap PriorityTag Z)
  (per : gmap NodeRef Z) :
  (∀ tag, summed !! tag ≠ Some 0) →
  (applyDelta tagToNodes priorityTag (- delta)
     (applyDelta tagToNodes priorityTag delta (summed, per))).1
  = summed.
Proof.
  intros Hnz. apply map_eq. intros tag.
  pose proof (applyDelta_sums tagToNodes priorityTag delta summed per tag) as H1.
  destruct (applyDelta tagToNodes priorityTag delta (summed, per))
    as [summed1 per1] eqn:Hfirst.
  pose proof (applyDelta_sums tagToNodes priorityTag (- delta) summed1 per1 tag)
    as H2.
  pose proof (applyDelta_no_zero_row tagToNodes priorityTag delta summed per Hnz)
    as Hnz1.
  rewrite Hfirst in Hnz1. simpl in H1, Hnz1.
  pose proof (applyDelta_no_zero_row tagToNodes priorityTag (- delta) summed1 per1
                Hnz1 tag) as Hnz2.
  specialize (Hnz tag).
  destruct ((applyDelta tagToNodes priorityTag (- delta) (summed1, per1)).1 !! tag)
    as [v2|]; destruct (summed !! tag) as [v|]; simpl in *;
    repeat case_decide; try done; rewrite H1 in H2;
    first [ f_equal; lia | destruct Hnz2; f_equal; lia | destruct Hnz; f_equal; lia ].
Qed.

Lemma applyDelta_opposite_witness :
  (applyDelta ∅ "folder:inbox" (-10)
     (applyDelta ∅ "folder:inbox" 10 ({["folder:sent" := 2]}, ∅))).1
  = {["folder:sent" := 2]}.
Proof.
  apply (applyDelta_opposite ∅ "folder:inbox" 10 {["folder:sent" := 2]} ∅).
  intros tag. destruct (decide (tag = "folder:sent")) as [->|Hne].
  - by rewrite lookup_singleton_eq.
  - by rewrite lookup_singleton_ne.
Defined.

Lemma foldl_delta_lookup (delta : Z) (nodes : list NodeRef) :
  ∀ (per : gmap NodeRef Z) k,
    foldl (λ per node, <[node := default 0 (per !! node) + delta]> per) per nodes
      !! k
    = match occurrences k nodes with
      | O => per !! k
      | S c => Some (default 0 (per !! k) + Z.of_nat (S c) * delta)
      end.
Proof.
  induction nodes as [|a nodes IH]; intros per k; simpl; [done|].
  rewrite IH, occurrences_cons.
  destruct (decide (a = k)) as [->|Hne].
  - rewrite lookup_insert_eq. simpl.
    destruct (occurrences k nodes); f_equal; lia.
  - by rewrite lookup_insert_ne.
Qed.

(** X10.  [applyDelta] adds the delta to the aggregate of a node once for
    every time the node is listed under the tag (0 being the aggregate of a
    node not met before), and leaves the aggregate of a node not listed under
    the tag as it is. *)
Theorem applyDelta_per_node (tagToNodes : gmap PriorityTag (list NodeRef))
  (priorityTag : PriorityTag) (delta : Z) (summed : gmap PriorityTag Z)
  (per : gmap NodeRef Z) (node : NodeRef) :
  (applyDelta tagToNodes priorityTag delta (summed, per)).2 !! node
  = match occurrences node (default [] (tagToNodes !! priorityTag)) with
    | O => per !! node
    | S c => Some (default 0 (per !! node) + Z.of_nat (S c) * delta)
    end.
Proof.
  unfold applyDelta. simpl.
  destruct (tagToNodes !! priorityTag) as [nodes|]; simpl; [|done].
  apply foldl_delta_lookup.
Qed.

(** ** What the executes tell the server *)

(** X13.  When [store_flags]'s execute completes, the operations it issued
    are, in this order: acquire the marker's account, read the message's
    location, one store command adding the flags of [changes.add] when there
    are some, one store command removing the flags of [changes.remove] when
    there are some, both by the uid found, and the [finishTask] call. *)
Theorem store_flags_execute_operations (w : World) (imapDataName : string)
  (persistentState : StoreFlagsState) (marker : Marker) :
  outcome (store_flags_execute w imapDataName persistentState marker) = inr () →
  ∃ account folderId uid changes,
    acquireAccount w (marker_accountId marker) = inr account ∧
    beginMutate w (marker_umid marker) = inr (Some (folderId, uid)) ∧
    umidChanges persistentState !! marker_umid marker = Some changes ∧
    trace (store_flags_execute w imapDataName persistentState marker)
    = [AcquireAccount (marker_accountId marker); BeginMutate (marker_umid marker)]
      ++ store_commands imapDataName (getFolderById account folderId) uid changes
      ++ [FinishTask (ComplexTaskState
            {| umidChanges := delete (marker_umid marker)
                                (umidChanges persistentState) |})].
Proof.
  unfold store_flags_execute, store_commands.
  co_cases; intros Hout; try discriminate;
    eexists _, _, _, _; (split; [done|]); (split; [done|]); (split; [done|]);
    repeat match goal with
           | H : nonempty _ = _ |- _ => rewrite H; clear H
           | H : getFolderById _ _ = _ |- _ => rewrite H; clear H
           end;
    done.
Qed.

Lemma store_flags_execute_operations_witness :
  outcome (store_flags_execute working_world "flags" pending_seen marker_m) = inr () ∧
  ∃ account folderId uid changes,
    acquireAccount working_world "acct" = inr account ∧
    beginMutate working_world "m" = inr (Some (folderId, uid)) ∧
    umidChanges pending_seen !! "m" = Some changes ∧
    trace (store_flags_execute working_world "flags" pending_seen marker_m)
    = [AcquireAccount "acct"; BeginMutate "m"]
      ++ store_commands "flags" (getFolderById account folderId) uid changes
      ++ [FinishTask (ComplexTaskState
            {| umidChanges := delete "m" (umidChanges pending_seen) |})].
Proof.
  split; [reflexivity|].
  apply (store_flags_execute_operations working_world "flags" pending_seen
           marker_m).
  reflexivity.
Defined.

(** X14.  When the account is acquired and the database is read, but the read
    yields no location for the message or the persistent state holds no
    change-set for it, [store_flags]'s execute ends in a TypeError right
    after the read: it has sent no store command and has not called
    [finishTask]. *)
Theorem store_flags_execute_missing_data (w : World) (imapDataName : string)
  (persistentState : StoreFlagsState) (marker : Marker) (account : Account)
  (location : option (string * Z)) :
  acquireAccount w (marker_accountId marker) = inr account →
  beginMutate w (marker_umid marker) = inr location →
  location = None ∨ umidChanges persistentState !! marker_umid marker = None →
  (∃ msg, outcome (store_flags_execute w imapDataName persistentState marker)
          = inl (TypeError msg)) ∧
  trace (store_flags_execute w imapDataName persistentState marker)
  = [AcquireAccount (marker_accountId marker); BeginMutate (marker_umid marker)].
Proof.
  intros Hacquire Hbegin Hmissing. unfold store_flags_execute. co_unfold.
  rewrite Hacquire, Hbegin. simpl.
  destruct location as [[folderId uid]|]; simpl; [|by eauto].
  destruct Hmissing as [?|Hnone]; [done|]. rewrite Hnone. simpl. by eauto.
Qed.

Lemma store_flags_execute_missing_data_witness :
  umidChanges pending_seen !! "gone" = None ∧
  trace (store_flags_execute working_world "flags" pending_seen marker_unknown)
  = [AcquireAccount "acct"; BeginMutate "gone"].
Proof.
  split; [reflexivity|].
  apply (store_flags_execute_missing_data working_world "flags" pending_seen
           marker_unknown _ _ eq_refl eq_refl).
  right. reflexivity.
Defined.

(** X15.  When [store_flags]'s execute ends with an exception, either it has
    not called [finishTask] at all, or the exception is the one [finishTask]
    itself was rejected with; and it has sent at most two store commands. *)
Theorem store_flags_execute_exception (w : World) (imapDataName : string)
  (persistentState : StoreFlagsState) (marker : Marker) (e : JSError) :
  outcome (store_flags_execute w imapDataName persistentState marker) = inl e →
  (finishTask_calls (store_flags_execute w imapDataName persistentState marker)
   = 0%nat ∨
   finishTask w (ComplexTaskState
                   {| umidChanges := delete (marker_umid marker)
                                       (umidChanges persistentState) |})
   = inl e) ∧
  (length (filter is_pimapStore
             (trace (store_flags_execute w imapDataName persistentState marker)))
   ≤ 2)%nat.
Proof.
  unfold store_flags_execute.
  co_cases; intros Hout; try discriminate; (split; [|simpl; lia]);
    first [by left | right; congruence].
Qed.

Lemma store_flags_execute_exception_witness :
  outcome (store_flags_execute rejecting_world "flags" pending_seen marker_m)
  = inl (Rejected "NO") ∧
  finishTask_calls (store_flags_execute rejecting_world "flags" pending_seen marker_m)
  = 0%nat.
Proof.
  split; [reflexivity|].
  destruct (store_flags_execute_exception rejecting_world "flags" pending_seen
              marker_m (Rejected "NO") eq_refl) as [[Hnone|Hfinish] _].
  - exact Hnone.
  - discriminate Hfinish.
Defined.

(** X16.  A store command the server rejects ends [store_flags]'s execute with
    that rejection: when the command adding flags is rejected, the command
    removing flags is not sent, [finishTask] is not called, and the run
    consists of the three operations issued so far. *)
Theorem store_flags_execute_rejected_add (w : World) (imapDataName : string)
  (persistentState : StoreFlagsState) (marker : Marker) (account : Account)
  (folderId : string) (uid : Z) (changes : Changes) (flags : list string)
  (e : JSError) :
  acquireAccount w (marker_accountId marker) = inr account →
  beginMutate w (marker_umid marker) = inr (Some (folderId, uid)) →
  umidChanges persistentState !! marker_umid marker = Some changes →
  nonempty (add changes) = Some flags →
  pimap_store w (getFolderById account folderId) uid ("+" +:+ imapDataName) flags
  = inl e →
  outcome (store_flags_execute w imapDataName persistentState marker) = inl e ∧
  trace (store_flags_execute w imapDataName persistentState marker)
  = [AcquireAccount (marker_accountId marker); BeginMutate (marker_umid marker);
     PimapStore (getFolderById account folderId) uid ("+" +:+ imapDataName) flags].
Proof.
  intros Hacquire Hbegin Hchanges Hadd Hstore. unfold store_flags_execute.
  co_unfold. rewrite Hacquire, Hbegin. simpl. rewrite Hchanges. simpl.
  rewrite Hadd, Hstore. done.
Qed.

Lemma store_flags_execute_rejected_add_witness :
  trace (store_flags_execute rejecting_world "flags" pending_seen marker_m)
  = [AcquireAccount "acct"; BeginMutate "m";
     PimapStore (Some {| folder_path := "INBOX" |}) 42 "+flags" ["\Seen"]].
Proof.
  apply (store_flags_execute_rejected_add rejecting_world "flags" pending_seen
           marker_m _ "folder1" 42 _ ["\Seen"] (Rejected "NO")
           eq_refl eq_refl eq_refl eq_refl eq_refl).
Defined.

(** X17.  Unless the global scope binds [blob], [append_message]'s execute
    uploads nothing and does not call [finishTask], whatever the awaited
    operations do; when the account is acquired and the message blob derived,
    it ends in the ReferenceError for [blob] with those two operations as its
    whole run. *)
Theorem append_message_execute_without_blob (w : World) (req : AppendRequest) :
  globals w "blob" = None →
  filter is_pimapUpload (trace (append_message_execute w req)) = [] ∧
  finishTask_calls (append_message_execute w req) = 0%nat ∧
  ∀ account composedBlob,
    acquireAccount w (req_accountId req) = inr account →
    deriveMessageBlob w (req_messageInfo req) = inr composedBlob →
    outcome (append_message_execute w req) = inl (ReferenceError "blob") ∧
    trace (append_message_execute w req)
    = [AcquireAccount (req_accountId req); DeriveMessageBlob (req_messageInfo req)].
Proof.
  intros Hblob. unfold append_message_execute. co_unfold. rewrite Hblob.
  split; [by co_cases|]. split; [by co_cases|].
  intros account composedBlob Hacquire Hderive. by rewrite Hacquire, Hderive.
Qed.

Lemma append_message_execute_without_blob_witness :
  globals working_world "blob" = None ∧
  outcome (append_message_execute working_world request_r)
  = inl (ReferenceError "blob") ∧
  trace (append_message_execute working_world request_r)
  = [AcquireAccount "acct"; DeriveMessageBlob (JSObject 1)].
Proof.
  split; [reflexivity|].
  destruct (append_message_execute_without_blob working_world request_r eq_refl)
    as (_ & _ & Hrun).
  exact (Hrun _ _ eq_refl eq_refl).
Defined.

(** X18.  With [blob] bound, [append_message]'s execute for a folder the
    account does not know ends in a TypeError on reading the path of the
    folder, after the blob has been derived: nothing is uploaded and
    [finishTask] is not called. *)
Theorem append_message_execute_unknown_folder (w : World) (req : AppendRequest)
  (account : Account) (composedBlob : string) (v : JSValue) :
  globals w "blob" = Some v →
  acquireAccount w (req_accountId req) = inr account →
  getFolderById account (req_folderId req) = None →
  deriveMessageBlob w (req_messageInfo req) = inr composedBlob →
  outcome (append_message_execute w req)
  = inl (TypeError "folderInfo is undefined") ∧
  trace (append_message_execute w req)
  = [AcquireAccount (req_accountId req); DeriveMessageBlob (req_messageInfo req)].
Proof.
  intros Hblob Hacquire Hfolder Hderive. unfold append_message_execute.
  co_unfold. by rewrite Hacquire, Hderive, Hblob, Hfolder.
Qed.

Lemma append_message_execute_unknown_folder_witness :
  outcome (append_message_execute folderless_world request_r)
  = inl (TypeError "folderInfo is undefined") ∧
  trace (append_message_execute folderless_world request_r)
  = [AcquireAccount "acct"; DeriveMessageBlob (JSObject 1)].
Proof.
  apply (append_message_execute_unknown_folder folderless_world request_r
           {| folders := ∅ |} "message" JSUndefined
           eq_refl eq_refl eq_refl eq_refl).
Defined.

(** X19.  [append_message]'s execute completes exactly when the account is
    acquired, the account knows the folder, the blob is derived, the upload
    and the [finishTask] call succeed, and the global scope binds [blob] and
    the six identifiers handed to [finishTask].  Its run is then: acquire the
    account of the request, derive the blob of the request's message, upload
    the string read from that blob to the path of the request's folder, and
    call [finishTask] with, for each of the six, the value the global scope
    binds, the message id being filed under the umid of the request. *)
Theorem append_message_execute_operations (w : World) (req : AppendRequest) :
  outcome (append_message_execute w req) = inr () ↔
  ∃ account folderInfo composedBlob messageText modifiedConversations
    headerIdWrites messageId newConversations messageInfo extraTasks,
    acquireAccount w (req_accountId req) = inr account ∧
    getFolderById account (req_folderId req) = Some folderInfo ∧
    deriveMessageBlob w (req_messageInfo req) = inr composedBlob ∧
    globals w "blob" = Some messageText ∧
    pimap_upload w (folder_path folderInfo) (readAsBinaryString composedBlob)
    = inr () ∧
    globals w "modifiedConversations" = Some modifiedConversations ∧
    globals w "headerIdWrites" = Some headerIdWrites ∧
    globals w "messageId" = Some messageId ∧
    globals w "newConversations" = Some newConversations ∧
    globals w "messageInfo" = Some messageInfo ∧
    globals w "extraTasks" = Some extraTasks ∧
    finishTask w (MutationsAndNewData modifiedConversations headerIdWrites
                    (req_umid req, messageId) newConversations [messageInfo]
                    extraTasks)
    = inr () ∧
    trace (append_message_execute w req)
    = [AcquireAccount (req_accountId req);
       DeriveMessageBlob (req_messageInfo req);
       PimapUpload (folder_path folderInfo) (readAsBinaryString composedBlob);
       FinishTask (MutationsAndNewData modifiedConversations headerIdWrites
                     (req_umid req, messageId) newConversations [messageInfo]
                     extraTasks)].
Proof.
  split.
  - unfold append_message_execute.
    co_cases; intros Hout; try discriminate.
    eexists _, _, _, _, _, _, _, _, _, _.
    repeat (split; [done|]). reflexivity.
  - intros (account & folderInfo & composedBlob & messageText & conversations
            & headerIdMaps & messageId & newConversations & messageInfo & tasks
            & Hacc & Hfolder & Hblob & Htext & Hup & Hc & Hh & Hm & Hn & Hi
            & Ht & Hfin & _).
    unfold append_message_execute. co_unfold.
    rewrite Hacc. simpl. rewrite Hblob. simpl. rewrite Htext. simpl.
    rewrite Hfolder. simpl. rewrite Hup. simpl.
    rewrite Hc. simpl. rewrite Hh. simpl. rewrite Hm. simpl.
    rewrite Hn. simpl. rewrite Hi. simpl. rewrite Ht. simpl.
    by rewrite Hfin.
Qed.

(** In a global scope that binds each of the identifiers to a value of its
    own, [finishTask] receives each value in its place. *)
Lemma append_message_execute_operations_witness :
  outcome (append_message_execute scoped_world request_r) = inr () ∧
  trace (append_message_execute scoped_world request_r)
  = [AcquireAccount "acct"; DeriveMessageBlob (JSObject 1);
     PimapUpload "INBOX" "message";
     FinishTask (MutationsAndNewData (JSObject 10) (JSObject 11)
                   ("u", JSString "msg.1") (JSArray []) [JSObject 12]
                   (JSArray [JSObject 13]))].
Proof.
  split; [reflexivity|].
  destruct (proj1 (append_message_execute_operations scoped_world request_r)
              eq_refl)
    as (account & folderInfo & composedBlob & messageText & conversations
        & headerIdMaps & messageId & newConversations & messageInfo & tasks
        & Hacc & Hfolder & Hblob & _ & _ & Hc & Hh & Hm & Hn & Hi & Ht & _
        & Htrace).
  rewrite Htrace.
  injection Hacc as <-. injection Hblob as <-.
  injection Hfolder as <-. injection Hc as <-. injection Hh as <-.
  injection Hm as <-. injection Hn as <-. injection Hi as <-.
  injection Ht as <-.
  reflexivity.
Defined.

(** X20.  [append_message]'s plan is idempotent and looks at nothing but the
    fields it keeps: planning the planned task again records the same planned
    task, and two raw tasks that differ only in [resources],
    [exclusiveResources] or [priorityTags] are planned alike. *)
Theorem append_message_plan_idempotent (w : World)
  (rawTask rawTask' : gmap string JSValue) :
  (∀ field, field ≠ "resources" → field ≠ "exclusiveResources" →
            field ≠ "priorityTags" → rawTask' !! field = rawTask !! field) →
  ∃ plannedTask,
    trace (append_message_plan w rawTask) = [FinishTask (TaskState plannedTask)] ∧
    trace (append_message_plan w plannedTask) = [FinishTask (TaskState plannedTask)] ∧
    trace (append_message_plan w rawTask') = [FinishTask (TaskState plannedTask)].
Proof.
  intros Hsame. eexists. split; [reflexivity|].
  unfold append_message_plan, shallowClone, trace, yield. simpl. split.
  - do 3 f_equal. apply map_eq. intros field.
    destruct (decide (field = "priorityTags")) as [->|?]; [by simplify_map_eq|].
    destruct (decide (field = "exclusiveResources")) as [->|?];
      [by simplify_map_eq|].
    destruct (decide (field = "resources")) as [->|?]; by simplify_map_eq.
  - do 3 f_equal. apply map_eq. intros field.
    destruct (decide (field = "priorityTags")) as [->|?]; [by simplify_map_eq|].
    destruct (decide (field = "exclusiveResources")) as [->|?];
      [by simplify_map_eq|].
    destruct (decide (field = "resources")) as [->|?]; [by simplify_map_eq|].
    simplify_map_eq. by apply Hsame.
Qed.

Lemma append_message_plan_idempotent_witness :
  ∃ plannedTask,
    trace (append_message_plan working_world raw_append)
    = [FinishTask (TaskState plannedTask)] ∧
    trace (append_message_plan working_world plannedTask)
    = [FinishTask (TaskState plannedTask)] ∧
    trace (append_message_plan working_world (delete "resources" raw_append))
    = [FinishTask (TaskState plannedTask)].
Proof.
  apply (append_message_plan_idempotent working_world raw_append
           (delete "resources" raw_append)).
  intros field Hres _ _. by apply lookup_delete_ne.
Defined.

(** ** The logging shim *)

Lemma shim_call_events (c : AxeShim.Call) (l : AxeShim.Logic) :
  AxeShim.isCensored (AxeShim.call c l) = AxeShim.isCensored l ∧
  AxeShim.events (AxeShim.call c l)
  = AxeShim.events l
    ++ option_list (AxeShim.event_of (AxeShim.isCensored l) c).
Proof.
  destruct l as [censored evs].
  destruct c; simpl; unfold AxeShim.debug, AxeShim.log, AxeShim.warn,
    AxeShim.error, AxeShim.logic; try done.
  destruct censored; simpl; [|done]. by rewrite app_nil_r.
Qed.

(** X21.  Whatever sequence of [debug], [log], [warn] and [error] calls the
    shim receives, the log grows by one event per call, in call order, in the
    scope BrowserBox, of the type of the function and with the message alone
    (the tag never reaches the log), except that under censorship the calls of
    [debug] leave nothing: no event of type debug is added. *)
Theorem shim_calls_events (cs : list AxeShim.Call) (l : AxeShim.Logic) :
  AxeShim.isCensored (AxeShim.calls cs l) = AxeShim.isCensored l ∧
  AxeShim.events (AxeShim.calls cs l)
  = AxeShim.events l ++ omap (AxeShim.event_of (AxeShim.isCensored l)) cs ∧
  (AxeShim.isCensored l = true →
   ∀ ev, ev ∈ AxeShim.events (AxeShim.calls cs l) →
         ev ∈ AxeShim.events l ∨ AxeShim.event_type ev ≠ "debug").
Proof.
  assert (AxeShim.isCensored (AxeShim.calls cs l) = AxeShim.isCensored l ∧
          AxeShim.events (AxeShim.calls cs l)
          = AxeShim.events l ++ omap (AxeShim.event_of (AxeShim.isCensored l)) cs)
    as [Hcensored Hevents].
  { unfold AxeShim.calls. revert l.
    induction cs as [|c cs IH]; intros l; simpl; [by rewrite app_nil_r|].
    destruct (IH (AxeShim.call c l)) as [-> ->].
    destruct (shim_call_events c l) as [-> ->]. split; [done|].
    rewrite <- app_assoc. f_equal.
    by destruct (AxeShim.event_of (AxeShim.isCensored l) c). }
  split; [done|]. split; [done|].
  intros Hc ev. rewrite Hevents, Hc.
  intros [Hev|(c & _ & Hc')%list_elem_of_omap]%elem_of_app; [by left|].
  right. destruct c; simpl in Hc'; [done|..]; by injection Hc' as <-.
Qed.

(** ** The retry loop of syncFolders *)

Section syncFolders_properties.

Context {St Info : Type}.
Variable normalizeFolder : FolderArgs → St → MaybeFolderInfo Info * St.
Variable addedFolder : MaybeFolderInfo Info → St → St.

Lemma tryAndAddFolder_effect (folderArgs : FolderArgs) (l : SyncLocals St Info) :
  let l' := tryAndAddFolder normalizeFolder addedFolder folderArgs l in
  (∃ added, newFolders l' = newFolders l ++ added ∧
            ∃ again, deferredFolders l' = deferredFolders l ++ again ∧
                     (length added + length again ≤ 1)%nat) ∧
  (∀ folderId, modifiedFolders l' !! Some folderId
               = modifiedFolders l !! Some folderId).
Proof.
  cbv zeta. unfold tryAndAddFolder.
  destruct (normalizeFolder folderArgs (syncState l)) as [[| |info] st]; simpl.
  - split; [|done]. exists []. rewrite app_nil_r. split; [done|].
    exists [folderArgs]. split; [done|]. simpl. lia.
  - split; [|intros folderId; by rewrite lookup_insert_ne].
    exists []. rewrite app_nil_r. split; [done|].
    exists []. rewrite app_nil_r. split; [done|]. simpl. lia.
  - split; [|done]. exists [info]. split; [done|].
    exists []. rewrite app_nil_r. split; [done|]. simpl. lia.
Qed.

Lemma foldl_tryAndAddFolder_effect (fs : list FolderArgs) :
  ∀ l : SyncLocals St Info,
    let l' := foldl (λ l a, tryAndAddFolder normalizeFolder addedFolder a l)
                    l fs in
    (∃ added, newFolders l' = newFolders l ++ added ∧
              ∃ again, deferredFolders l' = deferredFolders l ++ again ∧
                       (length added + length again ≤ length fs)%nat) ∧
    (∀ folderId, modifiedFolders l' !! Some folderId
                 = modifiedFolders l !! Some folderId).
Proof.
  induction fs as [|a fs IH]; intros l; simpl.
  - split; [|done]. exists []. rewrite app_nil_r. split; [done|].
    exists []. by rewrite app_nil_r.
  - destruct (IH (tryAndAddFolder normalizeFolder addedFolder a l))
      as [(added & -> & again & -> & Hlen) Hmod].
    destruct (tryAndAddFolder_effect a l)
      as [(added0 & -> & again0 & -> & Hlen0) Hmod0].
    split.
    + exists (added0 ++ added). rewrite app_assoc. split; [done|].
      exists (again0 ++ again). rewrite app_assoc. split; [done|].
      rewrite !length_app. lia.
    + intros folderId. by rewrite Hmod, Hmod0.
Qed.

Lemma retryPass_effect (l : SyncLocals St Info) :
  let l' := retryPass normalizeFolder addedFolder l in
  (∃ added, newFolders l' = newFolders l ++ added ∧
            (length added + length (deferredFolders l')
             ≤ length (deferredFolders l))%nat) ∧
  (∀ folderId, modifiedFolders l' !! Some folderId
               = modifiedFolders l !! Some folderId).
Proof.
  cbv zeta. unfold retryPass.
  destruct (foldl_tryAndAddFolder_effect (deferredFolders l)
              {| syncState := syncState l; newFolders := newFolders l;
                 modifiedFolders := modifiedFolders l; deferredFolders := [] |})
    as [(added & Hnew & again & Hagain & Hlen) Hmod].
  simpl in *. split; [|done]. exists added. split; [done|].
  rewrite Hagain. done.
Qed.

(** X22.  The retry loop over the deferred folders always ends, within as
    many turns as there are deferred folders: either it throws the error for
    orphaned folders, or it ends with no folder deferred, the new folders
    being those it had, followed by at most one more per folder that was
    deferred, and with no modification recorded under a folder id that was
    not there before. *)
Theorem retryDeferred_ends (l : SyncLocals St Info) :
  ∃ r,
    (∀ fuel, (length (deferredFolders l) ≤ fuel)%nat →
             retryDeferred normalizeFolder addedFolder fuel l = Some r) ∧
    match r with
    | inl msg => msg = "got some orphaned folders"
    | inr l' =>
        deferredFolders l' = [] ∧
        (∃ added, newFolders l' = newFolders l ++ added ∧
                  (length added ≤ length (deferredFolders l))%nat) ∧
        ∀ folderId, modifiedFolders l' !! Some folderId
                    = modifiedFolders l !! Some folderId
    end.
Proof.
  remember (length (deferredFolders l)) as n eqn:Hn. revert l Hn.
  induction (lt_wf n) as [n _ IH]. intros l Hn.
  destruct (deferredFolders l) as [|a rest] eqn:Hdeferred.
  - exists (inr l). split.
    + intros fuel _. destruct fuel; simpl; rewrite Hdeferred; reflexivity.
    + split; [done|]. split; [|done]. exists []. rewrite app_nil_r.
      split; [done|simpl; lia].
  - destruct (retryPass_effect l) as [(added & Hnew & Hlen) Hmod].
    rewrite Hdeferred in Hlen. simpl in Hn, Hlen.
    destruct (decide (length (deferredFolders l)
                      = length (deferredFolders
                                  (retryPass normalizeFolder addedFolder l))))
      as [Hsame|Hless].
    + exists (inl "got some orphaned folders"). split; [|done].
      intros [|fuel] Hfuel; [lia|]. simpl. rewrite Hdeferred.
      rewrite Hdeferred in Hsame. simpl in Hsame. by rewrite decide_True.
    + rewrite Hdeferred in Hless. simpl in Hless.
      destruct (IH (length (deferredFolders
                              (retryPass normalizeFolder addedFolder l)))
                  ltac:(lia) (retryPass normalizeFolder addedFolder l) eq_refl)
        as (r & Hr & Hresult).
      exists r. split.
      * intros [|fuel] Hfuel; [lia|]. simpl. rewrite Hdeferred.
        rewrite decide_False by done. apply Hr. lia.
      * destruct r as [msg|l']; [done|].
        destruct Hresult as (Hnone & (added' & Hnew' & Hlen') & Hmod').
        split; [done|]. split.
        -- exists (added ++ added'). rewrite app_assoc, <- Hnew. split; [done|].
           rewrite length_app. lia.
        -- intros folderId. by rewrite Hmod', Hmod.
Qed.

(** X23.  When [normalizeFolder] answers [null] for each of the deferred
    folders, leaving the sync state as it is, the loop throws the error for
    orphaned folders in its first turn. *)
Theorem retryDeferred_orphaned (l : SyncLocals St Info) (fuel : nat) :
  deferredFolders l ≠ [] →
  (∀ folderArgs, folderArgs ∈ deferredFolders l →
                 normalizeFolder folderArgs (syncState l) = (IsNull, syncState l)) →
  retryDeferred normalizeFolder addedFolder (S fuel) l
  = Some (inl "got some orphaned folders").
Proof.
  intros Hnonempty Hnull.
  assert (∀ fs (l0 : SyncLocals St Info),
            syncState l0 = syncState l →
            (∀ a, a ∈ fs → a ∈ deferredFolders l) →
            deferredFolders
              (foldl (λ l a, tryAndAddFolder normalizeFolder addedFolder a l)
                     l0 fs)
            = deferredFolders l0 ++ fs) as Hfold.
  { induction fs as [|a fs IHf]; intros l0 Hst Hin; simpl;
      [by rewrite app_nil_r|].
    assert (tryAndAddFolder normalizeFolder addedFolder a l0
            = {| syncState := syncState l; newFolders := newFolders l0;
                 modifiedFolders := modifiedFolders l0;
                 deferredFolders := deferredFolders l0 ++ [a] |}) as ->.
    { unfold tryAndAddFolder.
      by rewrite Hst, (Hnull a (Hin a (list_elem_of_here _ _))). }
    rewrite IHf; [|done|intros b Hb; by apply Hin, list_elem_of_further].
    simpl. by rewrite <- app_assoc. }
  simpl. destruct (deferredFolders l) as [|a rest] eqn:Hdeferred; [done|].
  rewrite decide_True; [done|].
  unfold retryPass. rewrite Hfold; [|done|by rewrite Hdeferred].
  by rewrite Hdeferred.
Qed.

End syncFolders_properties.

Lemma retryDeferred_orphaned_witness :
  retryDeferred known_parent remember 1
    (locals_with [folder "child" "parent"; folder "other" "nowhere"])
  = Some (inl "got some orphaned folders").
Proof.
  apply (retryDeferred_orphaned known_parent remember
           (locals_with [folder "child" "parent"; folder "other" "nowhere"]) 0).
  - discriminate.
  - intros folderArgs Hin. simpl in Hin.
    apply elem_of_cons in Hin as [->|Hin]; [by vm_compute|].
    apply list_elem_of_singleton in Hin as ->. by vm_compute.
Defined.

(** Folders that arrive before their parents are placed in later turns. *)
Lemma retryDeferred_child_before_parent :
  retryDeferred known_parent remember 3
    (locals_with [folder "grandchild" "child"; folder "child" "top";
                  folder "top" "0"])
  = Some (inr {| syncState := ["grandchild"; "child"; "top"];
                 newFolders := [folder "top" "0"; folder "child" "top";
                                folder "grandchild" "child"];
                 modifiedFolders := ∅; deferredFolders := [] |}).
Proof. by vm_compute. Qed.


(** ** What the key depends on *)

Lemma sumZ_permutation (l l' : list Z) : l ≡ₚ l' → sumZ l = sumZ l'.
Proof.
  unfold sumZ. induction 1 as [|x l l' _ IH|x y l|l l' l'' _ IH1 _ IH2]; simpl;
    [done|by rewrite IH|lia|by rewrite IH1].
Qed.

(** X11.  The key of a task or marker depends on nothing but its relative
    priority and the tags it carries, each counted as often as it occurs:
    neither the id, nor the kind (task or marker), nor the order of the tags
    matters. *)
Theorem nodeKey_permutation (s : TaskPriorities) (t t' : TaskThing) :
  thing_relPriority t = thing_relPriority t' →
  thing_priorityTags t ≡ₚ thing_priorityTags t' →
  nodeKey s t = nodeKey s t'.
Proof.
  intros Hrel Htags. rewrite !nodeKey_effective_priority.
  unfold effective_priority. rewrite Hrel. do 2 f_equal.
  apply sumZ_permutation. by apply fmap_Permutation.
Qed.

Lemma nodeKey_permutation_witness :
  nodeKey new_TaskPriorities (tagged_marker "m" ["a"; "b"] 3)
  = nodeKey new_TaskPriorities
      (WrappedTask "t" {| pt_type := "sync"; pt_priorityTags := ["b"; "a"];
                          pt_relPriority := Some 3 |}).
Proof.
  apply (nodeKey_permutation new_TaskPriorities (tagged_marker "m" ["a"; "b"] 3)).
  - reflexivity.
  - apply Permutation_swap.
Defined.

(** ** Reachable indexes *)

Lemma removeTaskThing_sums (taskId : TaskId) (s : TaskPriorities) :
  _summedPriorityTags (removeTaskThing taskId s) = _summedPriorityTags s.
Proof.
  unfold removeTaskThing.
  destruct (_taskIdToHeapNode s !! taskId) as [n|]; simpl; [|done].
  by destruct (node_at s n).
Qed.

Lemma popNextAvailableTask_sums (s : TaskPriorities) :
  _summedPriorityTags (final_state (popNextAvailableTask s)) = _summedPriorityTags s.
Proof.
  unfold popNextAvailableTask.
  destruct (FibonacciHeap.extractMinimum (_prioritizedTasks s)) as [[n|] h];
    simpl; [|done].
  unfold node_at. simpl. by destruct (FibonacciHeap.nodes h !! n).
Qed.

Lemma perform_sums (op : Operation) (s : TaskPriorities) :
  _summedPriorityTags (perform op s) = _summedPriorityTags s.
Proof.
  destruct op as [t| |taskId|owningId tagsWithValues]; simpl.
  - apply prioritizeTaskThing_sums.
  - apply popNextAvailableTask_sums.
  - apply removeTaskThing_sums.
  - apply setPriorityBoostTags_keeps_sums.
Qed.

Lemma perform_well_formed (op : Operation) (s : TaskPriorities) :
  well_formed s → well_formed (perform op s).
Proof.
  intros Hwf. destruct op as [t| |taskId|owningId tagsWithValues]; cbn [perform].
  - by apply prioritizeTaskThing_well_formed.
  - by apply popNextAvailableTask_well_formed.
  - by apply removeTaskThing_well_formed.
  - rewrite setPriorityBoostTags_throws. by destruct tagsWithValues.
Qed.

(** X12.  In an index that started empty, whatever sequence of
    [prioritizeTaskThing], [popNextAvailableTask], [removeTaskThing] and
    [setPriorityBoostTags] calls it has seen (with what they threw caught), no
    tag has a recorded weight: the key of every task or marker is the negation
    of its relative priority, its tags and the boosts set by any owner
    notwithstanding.  The index is also well formed. *)
Theorem performAll_never_weighs_tags (ops : list Operation) :
  let s := performAll ops new_TaskPriorities in
  _summedPriorityTags s = ∅ ∧
  (∀ tags, _computePriorityForTags s tags = 0) ∧
  (∀ t, nodeKey s t = - default 0 (thing_relPriority t)) ∧
  well_formed s.
Proof.
  simpl.
  assert (_summedPriorityTags (performAll ops new_TaskPriorities) = ∅
          ∧ well_formed (performAll ops new_TaskPriorities)) as [Hsums Hwf].
  { unfold performAll. induction ops as [|op ops IH] using rev_ind.
    - split; [done|exact well_formed_new].
    - rewrite foldl_app. simpl. destruct IH as [IH1 IH2].
      split; [by rewrite perform_sums|by apply perform_well_formed]. }
  assert (∀ tags, _computePriorityForTags (performAll ops new_TaskPriorities) tags = 0)
    as Hzero.
  { intros tags. rewrite computePriorityForTags_sum.
    unfold sumZ. induction tags as [|tag tags IH]; csimpl; [done|].
    rewrite IH. unfold tag_weight. rewrite Hsums, lookup_empty. done. }
  split; [done|]. split; [done|]. split; [|done].
  intros t. unfold nodeKey. rewrite Hzero. lia.
Qed.


(** ** The flags of a message *)

Lemma filterOutBuiltinFlags_foldl (l acc : list string) :
  foldl (λ outFlags flag,
           if decide (MailMessage.kept flag) then outFlags ++ [flag] else outFlags)
        acc l
  = acc ++ filter MailMessage.kept l.
Proof.
  revert acc. induction l as [|flag l IH]; intros acc; simpl.
  - by rewrite app_nil_r.
  - rewrite IH. destruct (decide (MailMessage.kept flag)) as [Hk|Hk].
    + rewrite filter_cons_True by done. by rewrite <- app_assoc.
    + by rewrite filter_cons_False.
Qed.

Lemma filter_reverse_kept (l : list string) :
  filter MailMessage.kept (reverse l) = reverse (filter MailMessage.kept l).
Proof.
  induction l as [|flag l IH]; [done|].
  rewrite reverse_cons, filter_app, IH.
  destruct (decide (MailMessage.kept flag)) as [Hk|Hk].
  - rewrite (filter_cons_True _ flag l) by done.
    rewrite reverse_cons. f_equal.
    by rewrite filter_cons_True.
  - rewrite (filter_cons_False _ flag l) by done.
    rewrite filter_cons_False by done. by rewrite app_nil_r.
Qed.

Lemma filterOutBuiltinFlags_filter (flags : list string) :
  MailMessage.filterOutBuiltinFlags flags
  = reverse (filter MailMessage.kept flags).
Proof.
  unfold MailMessage.filterOutBuiltinFlags.
  rewrite filterOutBuiltinFlags_foldl. simpl. apply filter_reverse_kept.
Qed.

Lemma indexOf_elem_of (flags : list string) (flag : string) :
  MailMessage.indexOf flags flag ≠ -1 ↔ flag ∈ flags.
Proof.
  unfold MailMessage.indexOf.
  destruct (list_find (λ f, f = flag) flags) as [[i f]|] eqn:Hfind.
  - apply list_find_Some in Hfind as (Hi & -> & _).
    split; [intros _; by eapply list_elem_of_lookup_2|lia].
  - apply list_find_None in Hfind. split; [done|].
    intros Hin _. rewrite Forall_forall in Hfind. by apply (Hfind flag).
Qed.

(** X24.  [filterOutBuiltinFlags] returns, in reverse order, the flags
    that do not start with a backslash (the empty flag among them), and leaves
    out every other one; applied to its own result it gives them in their
    original order. *)
Theorem filterOutBuiltinFlags_reversed (flags : list string) :
  MailMessage.filterOutBuiltinFlags flags
  = reverse (filter MailMessage.kept flags) ∧
  MailMessage.filterOutBuiltinFlags (MailMessage.filterOutBuiltinFlags flags)
  = filter MailMessage.kept flags ∧
  (∀ flag, flag ∈ MailMessage.filterOutBuiltinFlags flags
           ↔ flag ∈ flags ∧ MailMessage.first flag ≠ Some "\").
Proof.
  split; [apply filterOutBuiltinFlags_filter|]. split.
  - rewrite !filterOutBuiltinFlags_filter.
    rewrite <- filter_reverse_kept, reverse_involutive.
    apply list_filter_filter_l. done.
  - intros flag. rewrite filterOutBuiltinFlags_filter, elem_of_reverse.
    rewrite list_elem_of_filter. unfold MailMessage.kept. tauto.
Qed.

(** X25.  What [__update] derives from the flags of the wire
    representation: each boolean says whether its flag is among them; the
    tags never hold a flag that starts with a backslash, so none of [\Seen],
    [\Flagged] and [\Answered], while [$Forwarded] and [$Junk] are among the
    tags exactly when [isForwarded] and [isJunk] are set; and every flag is a
    tag or starts with a backslash. *)
Theorem update_flags_tags (flags : list string) :
  let m := MailMessage.update_flags flags in
  (MailMessage.isRead m = true ↔ "\Seen" ∈ flags) ∧
  (MailMessage.isStarred m = true ↔ "\Flagged" ∈ flags) ∧
  (MailMessage.isRepliedTo m = true ↔ "\Answered" ∈ flags) ∧
  (MailMessage.isForwarded m = true ↔ "$Forwarded" ∈ MailMessage.tags m) ∧
  (MailMessage.isJunk m = true ↔ "$Junk" ∈ MailMessage.tags m) ∧
  (∀ tag, tag ∈ MailMessage.tags m → MailMessage.first tag ≠ Some "\") ∧
  (∀ flag, flag ∈ flags →
           flag ∈ MailMessage.tags m ∨ MailMessage.first flag = Some "\").
Proof.
  simpl.
  assert (∀ flag, flag ∈ MailMessage.filterOutBuiltinFlags flags
                  ↔ flag ∈ flags ∧ MailMessage.first flag ≠ Some "\") as Htags.
  { intros flag. rewrite filterOutBuiltinFlags_filter, elem_of_reverse.
    rewrite list_elem_of_filter. unfold MailMessage.kept. tauto. }
  repeat match goal with
         | |- (bool_decide _ = true ↔ _) ∧ _ => split
         end.
  - by rewrite bool_decide_eq_true, indexOf_elem_of.
  - by rewrite bool_decide_eq_true, indexOf_elem_of.
  - by rewrite bool_decide_eq_true, indexOf_elem_of.
  - rewrite bool_decide_eq_true, indexOf_elem_of, Htags.
    split; [intros Hin; by split|by intros [Hin _]].
  - rewrite bool_decide_eq_true, indexOf_elem_of, Htags.
    split; [intros Hin; by split|by intros [Hin _]].
  - split.
    + intros tag Htag. by apply Htags in Htag as [_ Htag].
    + intros flag Hin.
      destruct (decide (MailMessage.first flag = Some "\")) as [Hb|Hb];
        [by right|left; by apply Htags].
Qed.

(** ** Search patterns *)

Lemma backslash_special (c : Ascii.ascii) :
  String c EmptyString = "\" → c ∈ SearchPattern.special.
Proof. intros [= ->]. by apply (bool_decide_unpack _). Qed.

Lemma literal_text_regExpEscape (str : string) :
  SearchPattern.literal_text (SearchPattern.regExpEscape str) = Some str.
Proof.
  induction str as [|c rest IH]; [done|]. simpl.
  destruct (decide (c ∈ SearchPattern.special)) as [Hc|Hc].
  - simpl. rewrite decide_True by done. by rewrite IH.
  - simpl. rewrite decide_False.
    + rewrite decide_False by done. by rewrite IH.
    + intros Hb. by apply Hc, backslash_special.
Qed.

(** X26.  The pattern [regExpEscape] builds spells the string it was given
    with nothing but characters that stand for themselves and escaped special
    characters, so two strings never give the same pattern; every character
    is kept, at most one backslash being added before each. *)
Theorem regExpEscape_literal (str : string) :
  SearchPattern.literal_text (SearchPattern.regExpEscape str) = Some str ∧
  (∀ str', SearchPattern.regExpEscape str' = SearchPattern.regExpEscape str →
           str' = str) ∧
  (String.length str ≤ String.length (SearchPattern.regExpEscape str)
   ≤ 2 * String.length str)%nat.
Proof.
  split; [apply literal_text_regExpEscape|]. split.
  - intros str' Heq.
    assert (Some str' = Some str) as Hsome; [|by injection Hsome].
    rewrite <- (literal_text_regExpEscape str'), Heq.
    apply literal_text_regExpEscape.
  - induction str as [|c rest IH]; simpl; [lia|].
    destruct (decide (c ∈ SearchPattern.special)); simpl; lia.
Qed.

(** X27.  What [searchPatternFromArgs] returns is never a string; when it
    is a [RegExp], giving it back to [searchPatternFromArgs] returns it
    unchanged. *)
Theorem searchPatternFromArgs_result (args v : SearchPattern.Value) :
  SearchPattern.searchPatternFromArgs args = inr v →
  (∀ s, v ≠ SearchPattern.Str s) ∧
  (∀ pattern flags, v = SearchPattern.RegExp pattern flags →
                    SearchPattern.searchPatternFromArgs v = inr v).
Proof.
  intros Hres. split.
  - intros s ->. unfold SearchPattern.searchPatternFromArgs in Hres.
    destruct args as [| |b|n|s'|p fl|phrase]; simpl in Hres; try done.
    + by destruct b.
    + by rewrite andb_false_r in Hres.
    + destruct phrase; simpl in Hres; try done;
        repeat case_bool_decide; simpl in Hres; try done.
      by destruct b.
  - by intros pattern flags ->.
Qed.

Lemma searchPatternFromArgs_result_witness :
  SearchPattern.searchPatternFromArgs
    (SearchPattern.Object (SearchPattern.Str "a.b"))
  = inr (SearchPattern.RegExp "a\.b" "i") ∧
  SearchPattern.searchPatternFromArgs (SearchPattern.RegExp "a\.b" "i")
  = inr (SearchPattern.RegExp "a\.b" "i").
Proof.
  split; [reflexivity|].
  destruct (searchPatternFromArgs_result
              (SearchPattern.Object (SearchPattern.Str "a.b"))
              (SearchPattern.RegExp "a\.b" "i")) as [_ Hagain].
  - reflexivity.
  - by apply (Hagain "a\.b" "i").
Defined.

(** X28.  A string gives the case-insensitive pattern of its escaped text,
    the empty string included; the same string as the [phrase] of an object
    gives the same pattern, except for the empty string, for which
    [searchPatternFromArgs] throws.  A [RegExp] is returned as it is, with
    its own flags.  Apart from an object with a falsy [phrase], only
    [undefined], [null], booleans and numbers make it throw. *)
Theorem searchPatternFromArgs_cases (s : string) (args : SearchPattern.Value) :
  SearchPattern.searchPatternFromArgs (SearchPattern.Str s)
  = inr (SearchPattern.RegExp (SearchPattern.regExpEscape s) "i") ∧
  SearchPattern.searchPatternFromArgs (SearchPattern.Object (SearchPattern.Str s))
  = (if decide (s = "") then inl SearchPattern.no_pattern
     else SearchPattern.searchPatternFromArgs (SearchPattern.Str s)) ∧
  (SearchPattern.searchPatternFromArgs args = inl SearchPattern.no_pattern
   ↔ match args with
     | SearchPattern.Str _ | SearchPattern.RegExp _ _ => False
     | SearchPattern.Object phrase => SearchPattern.truthy phrase = false
     | _ => True
     end).
Proof.
  split; [done|]. split.
  - unfold SearchPattern.searchPatternFromArgs. simpl.
    destruct (decide (s = "")) as [->|Hs]; [done|].
    by rewrite bool_decide_true.
  - unfold SearchPattern.searchPatternFromArgs.
    destruct args as [| |b|n|s'|p fl|phrase]; simpl; try done.
    + by destruct b.
    + by rewrite andb_false_r.
    + destruct phrase; simpl; try done;
        repeat case_bool_decide; simpl; try done.
      by destruct b.
Qed.
